(** * Lazy sequence combinators of [generator.ts]

    A shallow embedding of the generator functions of [src/generator.ts]
    and proofs of the properties their specification states.

    - A generator object is a state machine ([Iterator]): its state holds
      the local variables of the generator function, the place where the
      body is suspended ([phase]) and the state of the upstream iterator
      that [for ... of] reads.  One [step] runs the body until it answers
      the pending [next()] (an element, the end, a throw), or until one
      pass of its loop ends without an answer ([Tau]).
    - Step functions are functions into [result]: a value, or a throw.
    - [n] and [count] of [take] are integers.
    - In the suspending family every [await], and every element answered
      to [for await], is a turn in which the generator gives control back:
      a [Tau] step.  A promise is given by the number of further turns it
      stays pending and by what it settles to.
    - [for await] over a synchronous iterable awaits each element.
      [toAsync_awaiting] is [toAsync] with the function that says which
      values are promises and what they settle to; [toAsync] is the same
      generator over a source none of whose elements is a promise, and
      what is stated with it is about such sources.
    - [break] and a throw inside [for ... of] also call [return()] on the
      upstream iterator when it has one.  [return()] is not part of the
      embedding: an [Iterator] stands for a source whose [return()] does
      nothing that can be observed, such as an array iterator, which has
      none, or a generator of this file over such a source.  What is
      stated of [take] and [takeWhile], the two combinators that [break],
      is stated over arrays and over generators of this file.
    - An [Iterator] is a value, and using it twice runs it twice from its
      first state, as iterating an array twice does.  A generator object
      that is passed twice runs once; the properties below do not pass
      one twice.
    - Consumers ([run], [next], [request], [reduce]) take fuel, since a
      source may be unbounded; [settles], [collects], [answers] and
      [returns] say that the consumer gets its result with any fuel from
      some amount on. *)

From Stdlib Require Import ZArith List Lia.
From stdpp Require Import base gmap strings.
Import ListNotations.

Set Universe Polymorphism.
Set Implicit Arguments.

Module Generator.

(** ** The pull protocol *)

(** What a caller-supplied step function does: it returns a value, or it
    throws.  [E] is the type of thrown values. *)
Inductive result (E T : Type) : Type :=
| Ok (v : T)
| Err (e : E).
Arguments Ok {E T} v.
Arguments Err {E T} e.

(** What one step of an iterator shows to the code driving it.
    [Yield v] and [Done] are the two answers of [next()]: [{value: v,
    done: false}] and [{done: true}].  [Throw e] is [next()] raising [e].
    [Tau] is a step that ends without an answer yet: a loop iteration that
    yielded nothing, or (in the suspending family) an [await]. *)
Inductive outcome (E T : Type) : Type :=
| Yield (v : T)
| Tau
| Done
| Throw (e : E).
Arguments Yield {E T} v.
Arguments Tau {E T}.
Arguments Done {E T}.
Arguments Throw {E T} e.

(** An iterator object: the type of its internal state, its transition
    function and its current state. *)
Record Iterator (E T : Type) : Type := mkIterator {
  St : Type;
  step : St -> St * outcome E T;
  cur : St
}.
Arguments mkIterator {E T St} step cur.

(** How draining an iterator ended: its source ran out (or it returned),
    or a throw came out of it. *)
Inductive ending (E : Type) : Type :=
| Completed
| Failed (e : E).
Arguments Completed {E}.
Arguments Failed {E} e.

(** A value of type [U | null | undefined]. *)
Inductive nullable (U : Type) : Type :=
| Null
| Undefined
| Value (u : U).
Arguments Null {U}.
Arguments Undefined {U}.
Arguments Value {U} u.

(** [x == null] of JavaScript: true of [null] and of [undefined] only. *)
Definition loose_eq_null {U} (x : nullable U) : bool :=
  match x with
  | Null | Undefined => true
  | Value _ => false
  end.

(** Primitive values, to have the falsy ones at hand:
    [0], the empty string and [false]. *)
Inductive prim : Type :=
| PNum (z : Z)
| PStr (s : string)
| PBool (b : bool).

(** [ToBoolean] on these primitives. *)
Definition truthy (p : prim) : bool :=
  match p with
  | PNum z => negb (z =? 0)%Z
  | PStr s => negb (String.eqb s EmptyString)
  | PBool b => b
  end.

(** Where a generator body with one loop is suspended. *)
Inductive phase : Type :=
| Fresh      (* created, body not started *)
| Pulling    (* inside [for ... of], asking upstream for an element *)
| Suspended  (* at a [yield] inside the loop *)
| Closed.    (* returned or threw *)

(** A suspending generator gives control back to the scheduler at each
    [await] and each time [for await] asks upstream for an element; such a
    turn is a [Tau] step.  A promise is described by the number of further
    turns it stays pending and by what it settles to. *)
Inductive awaitable (E U : Type) : Type :=
| Plain (u : U)
| Promise (delay : nat) (r : result E U).
Arguments Plain {E U} u.
Arguments Promise {E U} delay r.

Definition turns {E U} (a : awaitable E U) : nat :=
  match a with
  | Plain _ => O
  | Promise d _ => d
  end.

Definition settled {E U} (a : awaitable E U) : result E U :=
  match a with
  | Plain u => Ok u
  | Promise _ r => r
  end.

(** Where the body of a suspending generator is: as [phase], and
    [AReceived value]: upstream has answered [for await] with [value], the
    loop body has not run yet; [AAwaiting d x]: at an [await] whose promise
    settles in [d] more turns, [x] is what the body goes on with. *)
Inductive aphase (T X : Type) : Type :=
| AFresh
| APulling
| AReceived (value : T)
| AAwaiting (d : nat) (x : X)
| ASuspended
| AClosed.
Arguments AFresh {T X}.
Arguments APulling {T X}.
Arguments AReceived {T X} value.
Arguments AAwaiting {T X} d x.
Arguments ASuspended {T X}.
Arguments AClosed {T X}.

Section Protocol.
Context {E : Type}.

Definition set_cur {T} (g : Iterator E T) (s : St g) : Iterator E T :=
  mkIterator (step g) s.

(** [run g fuel s] is what the consumer loop [for (const x of g)] (or the
    spread [[...g]]) sees from state [s]: the elements produced, how the
    loop ended ([None]: the [fuel] ran out first), and the state the
    iterator is left in. *)
Fixpoint run {T} (g : Iterator E T) (fuel : nat) (s : St g)
  : list T * option (ending E) * St g :=
  match fuel with
  | O => ([], None, s)
  | S fuel' =>
      let (s', o) := step g s in
      match o with
      | Yield v =>
          let '(out, fin, sf) := run g fuel' s' in (v :: out, fin, sf)
      | Tau => run g fuel' s'
      | Done => ([], Some Completed, s')
      | Throw e => ([], Some (Failed e), s')
      end
  end.

Definition drain {T} (g : Iterator E T) (fuel : nat) := run g fuel (cur g).

(** [next g fuel s] is one call of [next()]: the steps up to the first
    answer.  [None] is a call that used up its [fuel]. *)
Fixpoint next {T} (g : Iterator E T) (fuel : nat) (s : St g)
  : option (St g * outcome E T) :=
  match fuel with
  | O => None
  | S fuel' =>
      let (s', o) := step g s in
      match o with
      | Tau => next g fuel' s'
      | _ => Some (s', o)
      end
  end.

(** [request g fuel k s] is the answer to the [k]-th call of [next()]
    (counting from 1) of a consumer that calls [next()] again and again,
    whatever the answers. *)
Fixpoint request {T} (g : Iterator E T) (fuel : nat) (k : nat) (s : St g)
  : option (outcome E T) :=
  match k with
  | O => None
  | S k' =>
      match next g fuel s with
      | None => None
      | Some (s', o) =>
          match k' with
          | O => Some o
          | S _ => request g fuel k' s'
          end
      end
  end.

(** ** Sources *)

(** The iterator of an array: the state is what is left to visit.  Past
    the end it answers [Done] and stays there. *)
Definition of_list {T} (l : list T) : Iterator E T :=
  mkIterator
    (fun rest : list T =>
       match rest with
       | value :: rest' => (rest', Yield value)
       | [] => ([], Done)
       end)
    l.

(** An unbounded source: the [i]-th pull (from 0) answers [f i]. *)
Definition of_fun {T} (f : nat -> T) : Iterator E T :=
  mkIterator (fun i : nat => (S i, Yield (f i))) O.

(** [counted g] behaves as [g] and counts the calls of [next()] it has
    answered (with an element, with [Done] or with a throw). *)
Definition counted {T} (g : Iterator E T) : Iterator E T :=
  mkIterator
    (fun '(c, s) =>
       let (s', o) := step g s in
       match o with
       | Tau => ((c, s'), Tau)
       | _ => ((S c, s'), o)
       end)
    (O, cur g).

(** ** Sequential combinators *)

(** [map]: [for (const value of iter) yield fn(value)]. *)
Definition map {T U} (iter : Iterator E T) (fn : T -> result E U)
  : Iterator E U :=
  mkIterator
    (fun '(ph, su) =>
       match ph with
       | Closed => ((Closed, su), Done)
       | _ =>
           let (su', o) := step iter su in
           match o with
           | Tau => ((Pulling, su'), Tau)
           | Done => ((Closed, su'), Done)
           | Throw e => ((Closed, su'), Throw e)
           | Yield value =>
               match fn value with
               | Ok r => ((Suspended, su'), Yield r)
               | Err e => ((Closed, su'), Throw e)
               end
           end
       end)
    (Fresh, cur iter).

(** [filter]: [for (const value of iter) if (predicate(value)) yield value]. *)
Definition filter {T} (iter : Iterator E T) (predicate : T -> result E bool)
  : Iterator E T :=
  mkIterator
    (fun '(ph, su) =>
       match ph with
       | Closed => ((Closed, su), Done)
       | _ =>
           let (su', o) := step iter su in
           match o with
           | Tau => ((Pulling, su'), Tau)
           | Done => ((Closed, su'), Done)
           | Throw e => ((Closed, su'), Throw e)
           | Yield value =>
               match predicate value with
               | Ok true => ((Suspended, su'), Yield value)
               | Ok false => ((Pulling, su'), Tau)
               | Err e => ((Closed, su'), Throw e)
               end
           end
       end)
    (Fresh, cur iter).

(** [reduce]: [let result = initial; for (const value of iter) result =
    fn(result, value); return result].  Not a generator: the call runs the
    whole loop.  [None]: the [fuel] ran out first. *)
Fixpoint reduce_from {T U} (iter : Iterator E T) (fn : U -> T -> result E U)
  (fuel : nat) (acc : U) (su : St iter) : option (result E U) :=
  match fuel with
  | O => None
  | S fuel' =>
      let (su', o) := step iter su in
      match o with
      | Tau => reduce_from iter fn fuel' acc su'
      | Done => Some (Ok acc)
      | Throw e => Some (Err e)
      | Yield value =>
          match fn acc value with
          | Ok acc' => reduce_from iter fn fuel' acc' su'
          | Err e => Some (Err e)
          end
      end
  end.

Definition reduce {T U} (iter : Iterator E T) (fn : U -> T -> result E U)
  (initial : U) (fuel : nat) : option (result E U) :=
  reduce_from iter fn fuel initial (cur iter).

(** [scan]: [let acc = initial; yield acc; for (const value of iter)
    { acc = fn(acc, value); yield acc; }]. *)
Definition scan {T U} (iter : Iterator E T) (fn : U -> T -> result E U)
  (initial : U) : Iterator E U :=
  mkIterator
    (fun '(ph, acc, su) =>
       match ph with
       | Closed => ((Closed, acc, su), Done)
       | Fresh => ((Suspended, acc, su), Yield acc)
       | _ =>
           let (su', o) := step iter su in
           match o with
           | Tau => ((Pulling, acc, su'), Tau)
           | Done => ((Closed, acc, su'), Done)
           | Throw e => ((Closed, acc, su'), Throw e)
           | Yield value =>
               match fn acc value with
               | Ok acc' => ((Suspended, acc', su'), Yield acc')
               | Err e => ((Closed, acc, su'), Throw e)
               end
           end
       end)
    (Fresh, initial, cur iter).

(** [flatten]: [for (const inner of iter) yield* inner].  The third
    component of the state is the inner iterator [yield*] is delegating
    to, if any. *)
Definition flatten {T} (iter : Iterator E (Iterator E T)) : Iterator E T :=
  mkIterator
    (fun '(ph, su, delegate) =>
       match ph with
       | Closed => ((Closed, su, delegate), Done)
       | _ =>
           match delegate with
           | Some inner =>
               let (si', o) := step inner (cur inner) in
               match o with
               | Yield v => ((Suspended, su, Some (set_cur inner si')), Yield v)
               | Tau => ((Pulling, su, Some (set_cur inner si')), Tau)
               | Done => ((Pulling, su, None), Tau)
               | Throw e => ((Closed, su, None), Throw e)
               end
           | None =>
               let (su', o) := step iter su in
               match o with
               | Tau => ((Pulling, su', None), Tau)
               | Done => ((Closed, su', None), Done)
               | Throw e => ((Closed, su', None), Throw e)
               | Yield inner => ((Pulling, su', Some inner), Tau)
               end
           end
       end)
    (Fresh, cur iter, None).

(** [concat]: the same body as [flatten], over the array of its
    arguments. *)
Definition concat {T} (iter : list (Iterator E T)) : Iterator E T :=
  flatten (of_list iter).

(** [flatMap]: [for (const value of iter) yield* fn(value)]. *)
Definition flatMap {T U} (iter : Iterator E T)
  (fn : T -> result E (Iterator E U)) : Iterator E U :=
  mkIterator
    (fun '(ph, su, delegate) =>
       match ph with
       | Closed => ((Closed, su, delegate), Done)
       | _ =>
           match delegate with
           | Some inner =>
               let (si', o) := step inner (cur inner) in
               match o with
               | Yield v => ((Suspended, su, Some (set_cur inner si')), Yield v)
               | Tau => ((Pulling, su, Some (set_cur inner si')), Tau)
               | Done => ((Pulling, su, None), Tau)
               | Throw e => ((Closed, su, None), Throw e)
               end
           | None =>
               let (su', o) := step iter su in
               match o with
               | Tau => ((Pulling, su', None), Tau)
               | Done => ((Closed, su', None), Done)
               | Throw e => ((Closed, su', None), Throw e)
               | Yield value =>
                   match fn value with
                   | Ok inner => ((Pulling, su', Some inner), Tau)
                   | Err e => ((Closed, su', None), Throw e)
                   end
               end
           end
       end)
    (Fresh, cur iter, None).

(** [filterMap]: [for (const value of iter) { const result = fn(value);
    if (result != null) yield result; }]. *)
Definition filterMap {T U} (iter : Iterator E T)
  (fn : T -> result E (nullable U)) : Iterator E (nullable U) :=
  mkIterator
    (fun '(ph, su) =>
       match ph with
       | Closed => ((Closed, su), Done)
       | _ =>
           let (su', o) := step iter su in
           match o with
           | Tau => ((Pulling, su'), Tau)
           | Done => ((Closed, su'), Done)
           | Throw e => ((Closed, su'), Throw e)
           | Yield value =>
               match fn value with
               | Ok r =>
                   if negb (loose_eq_null r)
                   then ((Suspended, su'), Yield r)
                   else ((Pulling, su'), Tau)
               | Err e => ((Closed, su'), Throw e)
               end
           end
       end)
    (Fresh, cur iter).

(** [take]: [let count = 0; for (const value of iter) { if (count >= n)
    break; yield value; count++; }].  [count++] runs when the generator
    is resumed after the [yield].  [n] and [count] are integers here. *)
Definition take {T} (iter : Iterator E T) (n : Z) : Iterator E T :=
  mkIterator
    (fun '(ph, count, su) =>
       match ph with
       | Closed => ((Closed, count, su), Done)
       | _ =>
           let count :=
             match ph with Suspended => (count + 1)%Z | _ => count end in
           let (su', o) := step iter su in
           match o with
           | Tau => ((Pulling, count, su'), Tau)
           | Done => ((Closed, count, su'), Done)
           | Throw e => ((Closed, count, su'), Throw e)
           | Yield value =>
               if (n <=? count)%Z
               then ((Closed, count, su'), Done)
               else ((Suspended, count, su'), Yield value)
           end
       end)
    (Fresh, 0%Z, cur iter).

(** [takeWhile]: [for (const value of iter) { if (!predicate(value))
    break; yield value; }]. *)
Definition takeWhile {T} (iter : Iterator E T)
  (predicate : T -> result E bool) : Iterator E T :=
  mkIterator
    (fun '(ph, su) =>
       match ph with
       | Closed => ((Closed, su), Done)
       | _ =>
           let (su', o) := step iter su in
           match o with
           | Tau => ((Pulling, su'), Tau)
           | Done => ((Closed, su'), Done)
           | Throw e => ((Closed, su'), Throw e)
           | Yield value =>
               match predicate value with
               | Ok b =>
                   if negb b
                   then ((Closed, su'), Done)
                   else ((Suspended, su'), Yield value)
               | Err e => ((Closed, su'), Throw e)
               end
           end
       end)
    (Fresh, cur iter).

(** [dedupe]: [const seen = new Set(); for (const value of iter) { const
    key = getKey(value); if (!seen.has(key)) { seen.add(key); yield
    value; } }]. *)
Definition dedupe {T} (iter : Iterator E T) (getKey : T -> result E string)
  : Iterator E T :=
  mkIterator
    (fun '(ph, seen, su) =>
       match ph with
       | Closed => ((Closed, seen, su), Done)
       | _ =>
           let (su', o) := step iter su in
           match o with
           | Tau => ((Pulling, seen, su'), Tau)
           | Done => ((Closed, seen, su'), Done)
           | Throw e => ((Closed, seen, su'), Throw e)
           | Yield value =>
               match getKey value with
               | Ok key =>
                   if negb (bool_decide (key ∈ seen))
                   then ((Suspended, {[key]} ∪ seen, su'), Yield value)
                   else ((Pulling, seen, su'), Tau)
               | Err e => ((Closed, seen, su'), Throw e)
               end
           end
       end)
    (Fresh, (∅ : gset string), cur iter).

(** ** The suspending family *)

(** [toAsync]: [for await (const value of iter) yield value], over a
    source none of whose elements is a promise: each element reaches the
    body, and the consumer, as it is. *)
Definition toAsync {T} (iter : Iterator E T) : Iterator E T :=
  mkIterator
    (fun '(ph, su) =>
       match ph with
       | AClosed => ((AClosed, su), Done)
       | AReceived value => ((ASuspended, su), Yield value)
       | AAwaiting _ x => match x : Empty_set with end
       | _ =>
           let (su', o) := step iter su in
           match o with
           | Tau => ((APulling, su'), Tau)
           | Done => ((AClosed, su'), Done)
           | Throw e => ((AClosed, su'), Throw e)
           | Yield value => ((AReceived value, su'), Tau)
           end
       end)
    (AFresh, cur iter).

(** [for await] over a synchronous iterable awaits each element before the
    loop body sees it.  [as_promise v] says what awaiting the value [v]
    does: [None] when [v] is not a promise, so that [await v] is [v];
    [Some (d, r)] when [v] is a promise that stays pending for [d] further
    turns and then settles to [r].  A fulfilled promise reaches the body,
    and the consumer, as the value it settled to; a rejected one makes the
    loop throw.  [toAsync], above, is this generator over a source none of
    whose elements is a promise. *)
Definition toAsync_awaiting {T} (as_promise : T -> option (nat * result E T))
  (iter : Iterator E T) : Iterator E T :=
  mkIterator
    (fun '(ph, su) =>
       match ph with
       | AClosed => ((AClosed, su), Done)
       | AReceived value => ((ASuspended, su), Yield value)
       | AAwaiting (S d) x => ((AAwaiting d x, su), Tau)
       | AAwaiting O (Ok value) => ((ASuspended, su), Yield value)
       | AAwaiting O (Err e) => ((AClosed, su), Throw e)
       | _ =>
           let (su', o) := step iter su in
           match o with
           | Tau => ((APulling, su'), Tau)
           | Done => ((AClosed, su'), Done)
           | Throw e => ((AClosed, su'), Throw e)
           | Yield value =>
               match as_promise value with
               | None => ((AReceived value, su'), Tau)
               | Some (d, x) => ((AAwaiting d x, su'), Tau)
               end
           end
       end)
    (AFresh, cur iter).

(** [mapAsync]: [for await (const value of iter) yield await fn(value)]. *)
Definition mapAsync {T U} (iter : Iterator E T)
  (fn : T -> result E (awaitable E U)) : Iterator E U :=
  mkIterator
    (fun '(ph, su) =>
       match ph with
       | AClosed => ((AClosed, su), Done)
       | AReceived value =>
           match fn value with
           | Ok a => ((AAwaiting (turns a) (settled a), su), Tau)
           | Err e => ((AClosed, su), Throw e)
           end
       | AAwaiting (S d) x => ((AAwaiting d x, su), Tau)
       | AAwaiting O (Ok r) => ((ASuspended, su), Yield r)
       | AAwaiting O (Err e) => ((AClosed, su), Throw e)
       | _ =>
           let (su', o) := step iter su in
           match o with
           | Tau => ((APulling, su'), Tau)
           | Done => ((AClosed, su'), Done)
           | Throw e => ((AClosed, su'), Throw e)
           | Yield value => ((AReceived value, su'), Tau)
           end
       end)
    (AFresh, cur iter).

(** [filterAsync]: [for await (const value of iter) if (await
    predicate(value)) yield value]. *)
Definition filterAsync {T} (iter : Iterator E T)
  (predicate : T -> result E (awaitable E bool)) : Iterator E T :=
  mkIterator
    (fun '(ph, su) =>
       match ph with
       | AClosed => ((AClosed, su), Done)
       | AReceived value =>
           match predicate value with
           | Ok a => ((AAwaiting (turns a) (value, settled a), su), Tau)
           | Err e => ((AClosed, su), Throw e)
           end
       | AAwaiting (S d) x => ((AAwaiting d x, su), Tau)
       | AAwaiting O (value, Ok true) => ((ASuspended, su), Yield value)
       | AAwaiting O (value, Ok false) => ((APulling, su), Tau)
       | AAwaiting O (_, Err e) => ((AClosed, su), Throw e)
       | _ =>
           let (su', o) := step iter su in
           match o with
           | Tau => ((APulling, su'), Tau)
           | Done => ((AClosed, su'), Done)
           | Throw e => ((AClosed, su'), Throw e)
           | Yield value => ((AReceived value, su'), Tau)
           end
       end)
    (AFresh, cur iter).

(** [reduceAsync]: [let result = initial; for await (const value of iter)
    result = await fn(result, value); return result].  The value is what
    the returned promise settles to; [None]: the [fuel] ran out first. *)
Fixpoint reduceAsync_from {T U} (iter : Iterator E T)
  (fn : U -> T -> result E (awaitable E U)) (fuel : nat)
  (ph : aphase T (result E U)) (acc : U) (su : St iter)
  : option (result E U) :=
  match fuel with
  | O => None
  | S fuel' =>
      match ph with
      | AClosed => Some (Ok acc)
      | AReceived value =>
          match fn acc value with
          | Ok a =>
              reduceAsync_from iter fn fuel'
                (AAwaiting (turns a) (settled a)) acc su
          | Err e => Some (Err e)
          end
      | AAwaiting (S d) x =>
          reduceAsync_from iter fn fuel' (AAwaiting d x) acc su
      | AAwaiting O (Ok acc') =>
          reduceAsync_from iter fn fuel' APulling acc' su
      | AAwaiting O (Err e) => Some (Err e)
      | _ =>
          let (su', o) := step iter su in
          match o with
          | Tau => reduceAsync_from iter fn fuel' APulling acc su'
          | Done => Some (Ok acc)
          | Throw e => Some (Err e)
          | Yield value =>
              reduceAsync_from iter fn fuel' (AReceived value) acc su'
          end
      end
  end.

Definition reduceAsync {T U} (iter : Iterator E T)
  (fn : U -> T -> result E (awaitable E U)) (initial : U) (fuel : nat)
  : option (result E U) :=
  reduceAsync_from iter fn fuel AFresh initial (cur iter).

(** [scanAsync]: [let acc = initial; yield acc; for await (const value of
    iter) { acc = await fn(acc, value); yield acc; }]. *)
Definition scanAsync {T U} (iter : Iterator E T)
  (fn : U -> T -> result E (awaitable E U)) (initial : U) : Iterator E U :=
  mkIterator
    (fun '(ph, acc, su) =>
       match ph with
       | AClosed => ((AClosed, acc, su), Done)
       | AFresh => ((ASuspended, acc, su), Yield acc)
       | AReceived value =>
           match fn acc value with
           | Ok a => ((AAwaiting (turns a) (settled a), acc, su), Tau)
           | Err e => ((AClosed, acc, su), Throw e)
           end
       | AAwaiting (S d) x => ((AAwaiting d x, acc, su), Tau)
       | AAwaiting O (Ok acc') => ((ASuspended, acc', su), Yield acc')
       | AAwaiting O (Err e) => ((AClosed, acc, su), Throw e)
       | _ =>
           let (su', o) := step iter su in
           match o with
           | Tau => ((APulling, acc, su'), Tau)
           | Done => ((AClosed, acc, su'), Done)
           | Throw e => ((AClosed, acc, su'), Throw e)
           | Yield value => ((AReceived value, acc, su'), Tau)
           end
       end)
    (AFresh, initial, cur iter).



(** [flatMapAsync]: [for await (const value of iter) yield* fn(value)]. *)
Definition flatMapAsync {T U} (as_promise : U -> option (nat * result E U))
  (iter : Iterator E T) (fn : T -> result E (Iterator E U)) : Iterator E U :=
  mkIterator
    (fun '(ph, su, delegate) =>
       match ph with
       | AClosed => ((AClosed, su, delegate), Done)
       | AReceived value =>
           match fn value with
           | Ok inner => ((APulling, su, Some inner), Tau)
           | Err e => ((AClosed, su, None), Throw e)
           end
       | AAwaiting (S d) x => ((AAwaiting d x, su, delegate), Tau)
       | AAwaiting O (Ok v) => ((ASuspended, su, delegate), Yield v)
       | AAwaiting O (Err e) => ((AClosed, su, None), Throw e)
       | _ =>
           match delegate with
           | Some inner =>
               let (si', o) := step inner (cur inner) in
               match o with
               | Yield v =>
                   match as_promise v with
                   | None =>
                       ((ASuspended, su, Some (set_cur inner si')), Yield v)
                   | Some (d, x) =>
                       ((AAwaiting d x, su, Some (set_cur inner si')), Tau)
                   end
               | Tau => ((APulling, su, Some (set_cur inner si')), Tau)
               | Done => ((APulling, su, None), Tau)
               | Throw e => ((AClosed, su, None), Throw e)
               end
           | None =>
               let (su', o) := step iter su in
               match o with
               | Tau => ((APulling, su', None), Tau)
               | Done => ((AClosed, su', None), Done)
               | Throw e => ((AClosed, su', None), Throw e)
               | Yield value => ((AReceived value, su', None), Tau)
               end
           end
       end)
    (AFresh, cur iter, None).

(** [filterMapAsync]: [for await (const value of iter) { const result =
    await fn(value); if (result != null) yield result; }]. *)
Definition filterMapAsync {T U} (iter : Iterator E T)
  (fn : T -> result E (awaitable E (nullable U))) : Iterator E (nullable U) :=
  mkIterator
    (fun '(ph, su) =>
       match ph with
       | AClosed => ((AClosed, su), Done)
       | AReceived value =>
           match fn value with
           | Ok a => ((AAwaiting (turns a) (settled a), su), Tau)
           | Err e => ((AClosed, su), Throw e)
           end
       | AAwaiting (S d) x => ((AAwaiting d x, su), Tau)
       | AAwaiting O (Ok r) =>
           if negb (loose_eq_null r)
           then ((ASuspended, su), Yield r)
           else ((APulling, su), Tau)
       | AAwaiting O (Err e) => ((AClosed, su), Throw e)
       | _ =>
           let (su', o) := step iter su in
           match o with
           | Tau => ((APulling, su'), Tau)
           | Done => ((AClosed, su'), Done)
           | Throw e => ((AClosed, su'), Throw e)
           | Yield value => ((AReceived value, su'), Tau)
           end
       end)
    (AFresh, cur iter).

(** [takeAsync]: [let count = 0; for await (const value of iter) { if
    (count >= n) break; yield value; count++; }]. *)
Definition takeAsync {T} (iter : Iterator E T) (n : Z) : Iterator E T :=
  mkIterator
    (fun '(ph, count, su) =>
       match ph with
       | AClosed => ((AClosed, count, su), Done)
       | AReceived value =>
           if (n <=? count)%Z
           then ((AClosed, count, su), Done)
           else ((ASuspended, count, su), Yield value)
       | AAwaiting _ x => match x : Empty_set with end
       | _ =>
           let count :=
             match ph with ASuspended => (count + 1)%Z | _ => count end in
           let (su', o) := step iter su in
           match o with
           | Tau => ((APulling, count, su'), Tau)
           | Done => ((AClosed, count, su'), Done)
           | Throw e => ((AClosed, count, su'), Throw e)
           | Yield value => ((AReceived value, count, su'), Tau)
           end
       end)
    (AFresh, 0%Z, cur iter).

(** [takeWhileAsync]: [for await (const value of iter) { if (!(await
    predicate(value))) break; yield value; }]. *)
Definition takeWhileAsync {T} (iter : Iterator E T)
  (predicate : T -> result E (awaitable E bool)) : Iterator E T :=
  mkIterator
    (fun '(ph, su) =>
       match ph with
       | AClosed => ((AClosed, su), Done)
       | AReceived value =>
           match predicate value with
           | Ok a => ((AAwaiting (turns a) (value, settled a), su), Tau)
           | Err e => ((AClosed, su), Throw e)
           end
       | AAwaiting (S d) x => ((AAwaiting d x, su), Tau)
       | AAwaiting O (value, Ok b) =>
           if negb b
           then ((AClosed, su), Done)
           else ((ASuspended, su), Yield value)
       | AAwaiting O (_, Err e) => ((AClosed, su), Throw e)
       | _ =>
           let (su', o) := step iter su in
           match o with
           | Tau => ((APulling, su'), Tau)
           | Done => ((AClosed, su'), Done)
           | Throw e => ((AClosed, su'), Throw e)
           | Yield value => ((AReceived value, su'), Tau)
           end
       end)
    (AFresh, cur iter).

(** [dedupeAsync]: the body of [dedupe] under [for await]; [getKey] is
    not awaited. *)
Definition dedupeAsync {T} (iter : Iterator E T)
  (getKey : T -> result E string) : Iterator E T :=
  mkIterator
    (fun '(ph, seen, su) =>
       match ph with
       | AClosed => ((AClosed, seen, su), Done)
       | AReceived value =>
           match getKey value with
           | Ok key =>
               if negb (bool_decide (key ∈ seen))
               then ((ASuspended, {[key]} ∪ seen, su), Yield value)
               else ((APulling, seen, su), Tau)
           | Err e => ((AClosed, seen, su), Throw e)
           end
       | AAwaiting _ x => match x : Empty_set with end
       | _ =>
           let (su', o) := step iter su in
           match o with
           | Tau => ((APulling, seen, su'), Tau)
           | Done => ((AClosed, seen, su'), Done)
           | Throw e => ((AClosed, seen, su'), Throw e)
           | Yield value => ((AReceived value, seen, su'), Tau)
           end
       end)
    (AFresh, (∅ : gset string), cur iter).

(** A sequential step function used as a suspending one.  [timing v =
    None]: the function itself is passed ([fn v] is a plain value, or a
    throw).  [timing v = Some d]: the call answers with a promise that
    settles, [d] turns later, to what [fn v] gives. *)
Definition suspending {T U} (timing : T -> option nat) (fn : T -> result E U)
  : T -> result E (awaitable E U) :=
  fun v =>
    match timing v with
    | None =>
        match fn v with
        | Ok u => Ok (Plain u)
        | Err e => Err e
        end
    | Some d => Ok (Promise d (fn v))
    end.

(** ** What a consumer gets *)

(** [settles g s out fin sf]: draining [g] from state [s] ends, with any
    fuel from some amount on, having produced [out], ended as [fin] and
    left [g] in state [sf]. *)
Definition settles {T} (g : Iterator E T) (s : St g)
  (out : list T) (fin : ending E) (sf : St g) : Prop :=
  exists n0, forall k, run g (n0 + k) s = (out, Some fin, sf).

(** [collects_from g s (out, fin)]: as [settles], whatever the last
    state. *)
Definition collects_from {T} (g : Iterator E T) (s : St g)
  (r : list T * ending E) : Prop :=
  exists sf, settles g s r.1 r.2 sf.

(** [collects g (out, fin)]: the spread [[...g]] of a new [g] gives the
    elements [out] and ends as [fin]. *)
Definition collects {T} (g : Iterator E T) (r : list T * ending E) : Prop :=
  collects_from g (cur g) r.

(** [exhausted g s]: in state [s], [next()] answers [Done] and changes
    nothing, so it does so for ever. *)
Definition exhausted {T} (g : Iterator E T) (s : St g) : Prop :=
  step g s = (s, Done).

(** [answers g k o]: the [k]-th call of [next()] on a new [g] returns,
    and its answer is [o]. *)
Definition answers {T} (g : Iterator E T) (k : nat) (o : outcome E T) : Prop :=
  exists n0, forall j, request g (n0 + j) k (cur g) = Some o.

(** [returns c r]: the call [c] (a function of the fuel) returns [r]. *)
Definition returns {U} (c : nat -> option (result E U)) (r : result E U)
  : Prop :=
  exists n0, forall k, c (n0 + k) = Some r.



(** [closes g]: once [next()] has answered [Done] or thrown, [g] is
    exhausted. *)
Definition closes {T} (g : Iterator E T) : Prop :=
  forall s s' o, step g s = (s', o) ->
    match o with
    | Done | Throw _ => exhausted g s'
    | _ => True
    end.

(** [fails_after g out e]: the consumer of a new [g] receives the elements
    [out]; its next request, the one numbered [length out + 1], raises [e]
    itself; and [g] is then exhausted. *)
Definition fails_after {T} (g : Iterator E T) (out : list T) (e : E) : Prop :=
  (exists sf, settles g (cur g) out (Failed e) sf /\ exhausted g sf)
  /\ answers g (S (length out)) (Throw e).

(** The phases in which a suspending generator, when resumed, asks
    upstream for the next element. *)
Definition at_loop {T X} (ph : aphase T X) : Prop :=
  match ph with
  | AFresh | APulling | ASuspended => True
  | _ => False
  end.

(** ** The combinators on lists *)

(** What each combinator does to the list of the elements of its source,
    step functions that throw included. *)

Definition emit {T} (v : T) (r : list T * ending E) : list T * ending E :=
  (v :: r.1, r.2).

Fixpoint map_list {T U} (fn : T -> result E U) (l : list T)
  : list U * ending E :=
  match l with
  | [] => ([], Completed)
  | x :: l' =>
      match fn x with
      | Ok r => emit r (map_list fn l')
      | Err e => ([], Failed e)
      end
  end.

Fixpoint filter_list {T} (predicate : T -> result E bool) (l : list T)
  : list T * ending E :=
  match l with
  | [] => ([], Completed)
  | x :: l' =>
      match predicate x with
      | Ok true => emit x (filter_list predicate l')
      | Ok false => filter_list predicate l'
      | Err e => ([], Failed e)
      end
  end.

Fixpoint reduce_list {T U} (fn : U -> T -> result E U) (acc : U) (l : list T)
  : result E U :=
  match l with
  | [] => Ok acc
  | x :: l' =>
      match fn acc x with
      | Ok acc' => reduce_list fn acc' l'
      | Err e => Err e
      end
  end.

(** The elements of [scan] after the first one. *)
Fixpoint scan_list {T U} (fn : U -> T -> result E U) (acc : U) (l : list T)
  : list U * ending E :=
  match l with
  | [] => ([], Completed)
  | x :: l' =>
      match fn acc x with
      | Ok acc' => emit acc' (scan_list fn acc' l')
      | Err e => ([], Failed e)
      end
  end.

Fixpoint filterMap_list {T U} (fn : T -> result E (nullable U)) (l : list T)
  : list (nullable U) * ending E :=
  match l with
  | [] => ([], Completed)
  | x :: l' =>
      match fn x with
      | Ok r =>
          if loose_eq_null r then filterMap_list fn l'
          else emit r (filterMap_list fn l')
      | Err e => ([], Failed e)
      end
  end.

Fixpoint flatMap_list {T U} (fn : T -> result E (list U)) (l : list T)
  : list U * ending E :=
  match l with
  | [] => ([], Completed)
  | x :: l' =>
      match fn x with
      | Ok inner => (inner ++ (flatMap_list fn l').1, (flatMap_list fn l').2)
      | Err e => ([], Failed e)
      end
  end.

Fixpoint take_list {T} (n count : Z) (l : list T) : list T * ending E :=
  match l with
  | [] => ([], Completed)
  | x :: l' =>
      if (n <=? count)%Z then ([], Completed)
      else emit x (take_list n (count + 1) l')
  end.

Fixpoint takeWhile_list {T} (predicate : T -> result E bool) (l : list T)
  : list T * ending E :=
  match l with
  | [] => ([], Completed)
  | x :: l' =>
      match predicate x with
      | Ok true => emit x (takeWhile_list predicate l')
      | Ok false => ([], Completed)
      | Err e => ([], Failed e)
      end
  end.

Fixpoint dedupe_list {T} (getKey : T -> result E string) (seen : gset string)
  (l : list T) : list T * ending E :=
  match l with
  | [] => ([], Completed)
  | x :: l' =>
      match getKey x with
      | Ok key =>
          if bool_decide (key ∈ seen) then dedupe_list getKey seen l'
          else emit x (dedupe_list getKey ({[key]} ∪ seen) l')
      | Err e => ([], Failed e)
      end
  end.

(** What [yield*] does with an inner iterator that settles: its elements
    are handed on; when it is done the loop goes on, when it throws the
    generator is closed by the throw. *)
Definition delegated {T} (inner : list T * ending E) (r : list T * ending E)
  : list T * ending E :=
  match inner.2 with
  | Completed => (inner.1 ++ r.1, r.2)
  | Failed e => (inner.1, Failed e)
  end.

(** A step function of two arguments used as a suspending one. *)
Definition suspending2 {T U} (timing : U -> T -> option nat)
  (fn : U -> T -> result E U) : U -> T -> result E (awaitable E U) :=
  fun acc => suspending (timing acc) (fn acc).

(** A step function that does not throw. *)
Definition pure {T U} (f : T -> U) : T -> result E U := fun v => Ok (f v).
Definition pure2 {T U} (f : U -> T -> U) : U -> T -> result E U :=
  fun acc v => Ok (f acc v).

(** A step function that answers with arrays. *)
Definition arrays {T U} (fn : T -> result E (list U))
  : T -> result E (Iterator E U) :=
  fun v =>
    match fn v with
    | Ok inner => Ok (of_list inner)
    | Err e => Err e
    end.

(** ** Words of the specification *)

(** The accumulators after each element: [f i x1], [f (f i x1) x2], ... *)
Fixpoint running {T U} (f : U -> T -> U) (acc : U) (l : list T) : list U :=
  match l with
  | [] => []
  | x :: l' => f acc x :: running f (f acc x) l'
  end.

(** The longest prefix of [l] on which [p] holds. *)
Fixpoint longest_prefix {T} (p : T -> bool) (l : list T) : list T :=
  match l with
  | [] => []
  | x :: l' => if p x then x :: longest_prefix p l' else []
  end.

(** The first occurrence of each key: an element of [l] is kept when no
    element of [before], or before it in [l], has its key. *)
Fixpoint first_occurrences {T} (key : T -> string) (before l : list T)
  : list T :=
  match l with
  | [] => []
  | x :: l' =>
      if bool_decide (key x ∈ List.map key before)
      then first_occurrences key (before ++ [x]) l'
      else x :: first_occurrences key (before ++ [x]) l'
  end.

(** The results that are neither [null] nor [undefined]. *)
Definition present {U} (r : nullable U) : bool :=
  match r with
  | Value _ => true
  | Null | Undefined => false
  end.

(** The results of the example: [0], [null], the empty string,
    [undefined] and [false], by position. *)
Definition falsy_results (i : nat) : nullable prim :=
  match i with
  | 0 => Value (PNum 0)
  | 1 => Null
  | 2 => Value (PStr "")
  | 3 => Undefined
  | _ => Value (PBool false)
  end.

(** The chain of the laziness property of the specification:
    [map(filter(take(source, 1_000_000), p), f)] over an unbounded source
    whose calls of [next()] are counted. *)
Definition chain {T U} (src : nat -> T) (p : T -> bool) (f : T -> U)
  : Iterator E U :=
  map (filter (take (counted (of_fun src)) 1000000) (pure p)) (pure f).

(** ** Combinators over any source *)

(** The end of a combinator that reads its source to the end: its own
    throw when a step function threw, the end of the source otherwise. *)
Definition then_end {T} (r : list T * ending E) (fin : ending E)
  : list T * ending E :=
  (r.1, match r.2 with
        | Completed => fin
        | Failed e => Failed e
        end).

(** [take] on the elements [out] of a source that then ends as [fin]. *)
Fixpoint take_end {T} (n count : Z) (out : list T) (fin : ending E)
  : list T * ending E :=
  match out with
  | [] => ([], fin)
  | x :: out' =>
      if (n <=? count)%Z then ([], Completed)
      else emit x (take_end n (count + 1) out' fin)
  end.

(** [takeWhile] on the elements [out] of a source that then ends as
    [fin]. *)
Fixpoint takeWhile_end {T} (predicate : T -> result E bool) (out : list T)
  (fin : ending E) : list T * ending E :=
  match out with
  | [] => ([], fin)
  | x :: out' =>
      match predicate x with
      | Ok true => emit x (takeWhile_end predicate out' fin)
      | Ok false => ([], Completed)
      | Err e => ([], Failed e)
      end
  end.

(** [g] after [f]; a throw of [f] comes first. *)
Definition and_then {T U V} (f : T -> result E U) (g : U -> result E V)
  : T -> result E V :=
  fun v =>
    match f v with
    | Ok u => g u
    | Err e => Err e
    end.

(** The test [result != null] of [filterMap], as a predicate. *)
Definition not_nullish {U} : nullable U -> result E bool :=
  fun r => Ok (negb (loose_eq_null r)).

(** [requests g fuel k s]: the answers to [k] calls of [next()] in a row
    from state [s], and the state [g] is left in. *)
Fixpoint requests {T} (g : Iterator E T) (fuel : nat) (k : nat) (s : St g)
  : option (list (outcome E T) * St g) :=
  match k with
  | O => Some ([], s)
  | S k' =>
      match next g fuel s with
      | None => None
      | Some (s', o) =>
          match requests g fuel k' s' with
          | None => None
          | Some (os, sf) => Some (o :: os, sf)
          end
      end
  end.

(** ** [toAsync] over elements that may be promises *)

(** The elements of [l] as [for await] hands them to its body: a value
    that is not a promise as it is, a fulfilled promise as the value it
    settled to, and nothing after a rejected one. *)
Fixpoint settled_list {T} (as_promise : T -> option (nat * result E T))
  (l : list T) : list T * ending E :=
  match l with
  | [] => ([], Completed)
  | v :: l' =>
      match as_promise v with
      | None => emit v (settled_list as_promise l')
      | Some (_, Ok v') => emit v' (settled_list as_promise l')
      | Some (_, Err e) => ([], Failed e)
      end
  end.

(** The place of [toAsync] in the body of [toAsync_awaiting]. *)
Definition awaiting_phase {T} (ph : aphase T Empty_set)
  : aphase T (result E T) :=
  match ph with
  | AFresh => AFresh
  | APulling => APulling
  | AReceived value => AReceived value
  | AAwaiting _ x => match x : Empty_set with end
  | ASuspended => ASuspended
  | AClosed => AClosed
  end.

End Protocol.

(** ** Examples *)

(** An accumulator function that throws on every call, and [scan] with it
    over the one-element source [[7]]. *)
Definition always_throws : Z -> Z -> result string Z :=
  fun _ _ => Err "boom"%string.

Definition late_failure : Iterator string Z :=
  scan (of_list [7%Z]) always_throws 0%Z.

(** A predicate that rejects every number but [bad], on which it throws,
    and [filter] with it over [[1, 2, 3]]. *)
Definition throws_on (bad : Z) : Z -> result string bool :=
  fun v => if (v =? bad)%Z then Err "boom"%string else Ok false.

Definition early_failure : Iterator string Z :=
  filter (of_list [1; 2; 3]%Z) (throws_on 3).

(** A transform that throws on [bad] and adds one otherwise. *)
Definition succ_but (bad : Z) : Z -> result string Z :=
  fun v => if (v =? bad)%Z then Err "boom"%string else Ok (v + 1)%Z.


(** A source that gives 2 and 3 and then throws: [map] of [succ_but 3]
    over [[1, 2, 3]]. *)
Definition failing_source : Iterator string Z :=
  map (of_list [1; 2; 3]%Z) (succ_but 3).

(** An array of three arrays, the second one empty, as a source. *)
Definition nested_source : Iterator string (Iterator string Z) :=
  of_list (List.map of_list [[1; 2]; []; [3]]%Z).

(** An array element that is a number, or a promise of a number: pending
    for [d] further turns, then fulfilled with a number or rejected. *)
Inductive cell : Type :=
| Number (z : Z)
| Pending (d : nat) (r : result string Z).

(** [await] on a [cell]. *)
Definition await_cell (c : cell) : option (nat * result string cell) :=
  match c with
  | Number _ => None
  | Pending d (Ok z) => Some (d, Ok (Number z))
  | Pending d (Err e) => Some (d, Err e)
  end.

(** An accumulator that throws once the sum would exceed [10]. *)
Definition capped (acc v : Z) : result string Z :=
  if (10 <? acc + v)%Z then Err "overflow"%string else Ok (acc + v)%Z.

(** * Properties *)

Section Theory.
Context {E : Type}.

(** ** Draining, step by step *)

Lemma settles_tau {T} (g : Iterator E T) s s' out fin sf :
  step g s = (s', Tau) -> settles g s' out fin sf -> settles g s out fin sf.
Proof.
  intros Hs [n0 H]. exists (S n0). intros k. simpl. rewrite Hs. apply H.
Qed.

Lemma settles_yield {T} (g : Iterator E T) s s' v out fin sf :
  step g s = (s', Yield v) ->
  settles g s' out fin sf -> settles g s (v :: out) fin sf.
Proof.
  intros Hs [n0 H]. exists (S n0). intros k. simpl. rewrite Hs, H. reflexivity.
Qed.

Lemma settles_done {T} (g : Iterator E T) s s' :
  step g s = (s', Done) -> settles g s [] Completed s'.
Proof. intros Hs. exists 1. intros k. simpl. rewrite Hs. reflexivity. Qed.

Lemma settles_throw {T} (g : Iterator E T) s s' e :
  step g s = (s', Throw e) -> settles g s [] (Failed e) s'.
Proof. intros Hs. exists 1. intros k. simpl. rewrite Hs. reflexivity. Qed.

Lemma settles_det {T} (g : Iterator E T) s out1 fin1 sf1 out2 fin2 sf2 :
  settles g s out1 fin1 sf1 -> settles g s out2 fin2 sf2 ->
  out1 = out2 /\ fin1 = fin2 /\ sf1 = sf2.
Proof.
  intros [n1 H1] [n2 H2]. specialize (H1 n2). specialize (H2 n1).
  rewrite Nat.add_comm in H2. rewrite H1 in H2.
  inversion H2. auto.
Qed.

Lemma collects_tau {T} (g : Iterator E T) s s' r :
  step g s = (s', Tau) -> collects_from g s' r -> collects_from g s r.
Proof. intros Hs [sf H]. exists sf. eapply settles_tau; eauto. Qed.

Lemma collects_yield {T} (g : Iterator E T) s s' v r :
  step g s = (s', Yield v) ->
  collects_from g s' r -> collects_from g s (emit v r).
Proof. intros Hs [sf H]. exists sf. eapply settles_yield; eauto. Qed.

Lemma collects_done {T} (g : Iterator E T) s s' :
  step g s = (s', Done) -> collects_from g s ([], Completed).
Proof. intros Hs. exists s'. eapply settles_done; eauto. Qed.

Lemma collects_throw {T} (g : Iterator E T) s s' e :
  step g s = (s', Throw e) -> collects_from g s ([], Failed e).
Proof. intros Hs. exists s'. eapply settles_throw; eauto. Qed.

Lemma collects_det {T} (g : Iterator E T) s r1 r2 :
  collects_from g s r1 -> collects_from g s r2 -> r1 = r2.
Proof.
  intros [sf1 H1] [sf2 H2]. destruct r1, r2.
  destruct (settles_det H1 H2) as (? & ? & ?). simpl in *. congruence.
Qed.


Lemma run_S_inv {T} (g : Iterator E T) n s out fin sf :
  (forall k, run g (S n + k) s = (out, Some fin, sf)) ->
  match step g s with
  | (s', Yield v) =>
      exists out', out = v :: out' /\
                   forall k, run g (n + k) s' = (out', Some fin, sf)
  | (s', Tau) => forall k, run g (n + k) s' = (out, Some fin, sf)
  | (s', Done) => out = [] /\ fin = Completed /\ sf = s'
  | (s', Throw e) => out = [] /\ fin = Failed e /\ sf = s'
  end.
Proof.
  intros H. simpl in H. destruct (step g s) as [s' o]. destruct o as [v| | |e].
  - pose proof (H O) as H0.
    destruct (run g (n + 0) s') as [[o f] s0] eqn:Hr.
    inversion H0; subst. exists o. split; [reflexivity|].
    intros k. specialize (H k).
    destruct (run g (n + k) s') as [[o' f'] s0'].
    inversion H; subst. reflexivity.
  - exact H.
  - specialize (H O). inversion H. auto.
  - specialize (H O). inversion H. auto.
Qed.

(** One step of the machine, by computation. *)
Ltac ev :=
  unfold suspending2, suspending, arrays, pure, pure2; simpl;
  repeat match goal with H : ?a = _ |- context [?a] => rewrite H end;
  reflexivity.
Ltac tau := eapply collects_tau; [ev |].
Ltac yield := eapply collects_yield; [ev |].
Ltac finished := eapply collects_done; ev.
Ltac throw := eapply collects_throw; ev.
Ltac open_phase ph := destruct ph; try congruence; try contradiction.

(** ** The sequential combinators on arrays *)

Lemma map_from {T U} (fn : T -> result E U) l0 l ph :
  ph <> Closed ->
  collects_from (map (of_list l0) fn) (ph, l) (map_list fn l).
Proof.
  revert ph. induction l as [|x l IH]; intros ph Hph.
  - open_phase ph; finished.
  - simpl. destruct (fn x) eqn:Hx.
    + eapply collects_yield; [|apply (IH Suspended); congruence].
      open_phase ph; ev.
    + open_phase ph; throw.
Qed.

Lemma filter_from {T} (predicate : T -> result E bool) l0 l ph :
  ph <> Closed ->
  collects_from (filter (of_list l0) predicate) (ph, l)
    (filter_list predicate l).
Proof.
  revert ph. induction l as [|x l IH]; intros ph Hph.
  - open_phase ph; finished.
  - simpl. destruct (predicate x) as [[|]|e] eqn:Hx.
    + eapply collects_yield; [|apply (IH Suspended); congruence].
      open_phase ph; ev.
    + eapply collects_tau; [|apply (IH Pulling); congruence].
      open_phase ph; ev.
    + open_phase ph; throw.
Qed.

Lemma scan_loop {T U} (fn : U -> T -> result E U) initial l0 l ph acc :
  ph = Pulling \/ ph = Suspended ->
  collects_from (scan (of_list l0) fn initial) (ph, acc, l)
    (scan_list fn acc l).
Proof.
  revert ph acc. induction l as [|x l IH]; intros ph acc Hph.
  - destruct Hph; subst; finished.
  - simpl. destruct (fn acc x) eqn:Hx.
    + eapply collects_yield; [|apply (IH Suspended); auto].
      destruct Hph; subst; ev.
    + destruct Hph; subst; throw.
Qed.

Lemma scan_from {T U} (fn : U -> T -> result E U) initial l :
  collects (scan (of_list l) fn initial)
    (emit initial (scan_list fn initial l)).
Proof.
  unfold collects. eapply collects_yield; [reflexivity|].
  apply scan_loop; auto.
Qed.

Lemma filterMap_from {T U} (fn : T -> result E (nullable U)) l0 l ph :
  ph <> Closed ->
  collects_from (filterMap (of_list l0) fn) (ph, l) (filterMap_list fn l).
Proof.
  revert ph. induction l as [|x l IH]; intros ph Hph.
  - open_phase ph; finished.
  - simpl. destruct (fn x) as [r|e] eqn:Hx.
    + destruct (loose_eq_null r) eqn:Hr.
      * eapply collects_tau; [|apply (IH Pulling); congruence].
        open_phase ph; ev.
      * eapply collects_yield; [|apply (IH Suspended); congruence].
        open_phase ph; ev.
    + open_phase ph; throw.
Qed.

Lemma take_from {T} (n : Z) (l0 l : list T) ph count :
  ph <> Closed ->
  collects_from (take (E:=E) (of_list l0) n) (ph, count, l)
    (take_list n (match ph with Suspended => count + 1 | _ => count end) l).
Proof.
  revert ph count. induction l as [|x l IH]; intros ph count Hph.
  - open_phase ph; finished.
  - simpl.
    destruct (n <=? match ph with Suspended => count + 1 | _ => count end)%Z
      eqn:Hn.
    + open_phase ph; finished.
    + eapply collects_yield;
        [|apply (IH Suspended
                   (match ph with Suspended => count + 1 | _ => count end)%Z);
          congruence].
      open_phase ph; ev.
Qed.

Lemma takeWhile_from {T} (predicate : T -> result E bool) l0 l ph :
  ph <> Closed ->
  collects_from (takeWhile (of_list l0) predicate) (ph, l)
    (takeWhile_list predicate l).
Proof.
  revert ph. induction l as [|x l IH]; intros ph Hph.
  - open_phase ph; finished.
  - simpl. destruct (predicate x) as [[|]|e] eqn:Hx.
    + eapply collects_yield; [|apply (IH Suspended); congruence].
      open_phase ph; ev.
    + open_phase ph; finished.
    + open_phase ph; throw.
Qed.

Lemma dedupe_from {T} (getKey : T -> result E string) l0 l ph seen :
  ph <> Closed ->
  collects_from (dedupe (of_list l0) getKey) (ph, seen, l)
    (dedupe_list getKey seen l).
Proof.
  revert ph seen. induction l as [|x l IH]; intros ph seen Hph.
  - open_phase ph; finished.
  - simpl. destruct (getKey x) as [key|e] eqn:Hx.
    + destruct (bool_decide (key ∈ seen)) eqn:Hk.
      * eapply collects_tau; [|apply (IH Pulling); congruence].
        open_phase ph; ev.
      * eapply collects_yield; [|apply (IH Suspended); congruence].
        open_phase ph; ev.
    + open_phase ph; throw.
Qed.

Lemma of_list_from {T} (l0 l : list T) :
  collects_from (of_list (E:=E) l0) l (l, Completed).
Proof.
  induction l as [|x l IH].
  - finished.
  - eapply collects_yield with (r:=(l, Completed)); [reflexivity|exact IH].
Qed.

Lemma flatten_delegate {T} (iter : Iterator E (Iterator E T)) su
  (inner : Iterator E T) (s : St inner) ph ri r :
  ph <> Closed ->
  collects_from inner s ri ->
  collects_from (flatten iter) (Pulling, su, None) r ->
  collects_from (flatten iter) (ph, su, Some (set_cur inner s))
    (delegated ri r).
Proof.
  intros Hph [sf [n Hn]] Hr. destruct ri as [out fin]. simpl in Hn.
  revert s ph out Hph Hn. induction n as [|n IH]; intros s ph out Hph Hn.
  - specialize (Hn O). discriminate.
  - apply run_S_inv in Hn. destruct (step inner s) as [s' o] eqn:Hs.
    destruct o as [v| | |e].
    + destruct Hn as [out' [-> Hn]].
      specialize (IH s' Suspended out' ltac:(congruence) Hn).
      replace (delegated (v :: out', fin) r)
        with (emit v (delegated (out', fin) r))
        by (unfold delegated, emit; simpl; destruct fin; reflexivity).
      eapply collects_yield; [|exact IH]. open_phase ph; ev.
    + specialize (IH s' Pulling out ltac:(congruence) Hn).
      eapply collects_tau; [|exact IH]. open_phase ph; ev.
    + destruct Hn as (-> & -> & _). unfold delegated. simpl. destruct r.
      eapply collects_tau; [|exact Hr]. open_phase ph; ev.
    + destruct Hn as (-> & -> & _). unfold delegated. simpl.
      open_phase ph; throw.
Qed.


Lemma flatMap_delegate {T U} (iter : Iterator E T)
  (fn : T -> result E (Iterator E U)) su
  (inner : Iterator E U) (s : St inner) ph ri r :
  ph <> Closed ->
  collects_from inner s ri ->
  collects_from (flatMap iter fn) (Pulling, su, None) r ->
  collects_from (flatMap iter fn) (ph, su, Some (set_cur inner s))
    (delegated ri r).
Proof.
  intros Hph [sf [n Hn]] Hr. destruct ri as [out fin]. simpl in Hn.
  revert s ph out Hph Hn. induction n as [|n IH]; intros s ph out Hph Hn.
  - specialize (Hn O). discriminate.
  - apply run_S_inv in Hn. destruct (step inner s) as [s' o] eqn:Hs.
    destruct o as [v| | |e].
    + destruct Hn as [out' [-> Hn]].
      specialize (IH s' Suspended out' ltac:(congruence) Hn).
      replace (delegated (v :: out', fin) r)
        with (emit v (delegated (out', fin) r))
        by (unfold delegated, emit; simpl; destruct fin; reflexivity).
      eapply collects_yield; [|exact IH]. open_phase ph; ev.
    + specialize (IH s' Pulling out ltac:(congruence) Hn).
      eapply collects_tau; [|exact IH]. open_phase ph; ev.
    + destruct Hn as (-> & -> & _). unfold delegated. simpl. destruct r.
      eapply collects_tau; [|exact Hr]. open_phase ph; ev.
    + destruct Hn as (-> & -> & _). unfold delegated. simpl.
      open_phase ph; throw.
Qed.

Lemma flatMap_from {T U} (fn : T -> result E (list U)) l0 l ph :
  ph <> Closed ->
  collects_from (flatMap (of_list l0) (arrays fn)) (ph, l, None)
    (flatMap_list fn l).
Proof.
  revert ph. induction l as [|x l IH]; intros ph Hph.
  - open_phase ph; finished.
  - simpl. destruct (fn x) as [inner|e] eqn:Hx.
    + eapply collects_tau with (s':=(Pulling, l,
                                     Some (set_cur (of_list inner) inner)));
        [open_phase ph; ev|].
      apply flatMap_delegate
        with (ri:=(inner, Completed)) (r:=flatMap_list fn l);
        [congruence|apply of_list_from|apply (IH Pulling); congruence].
    + open_phase ph; throw.
Qed.

Lemma reduce_from_list {T U} (fn : U -> T -> result E U) l0 l acc :
  exists n0, forall k,
    reduce_from (of_list l0) fn (n0 + k) acc l = Some (reduce_list fn acc l).
Proof.
  revert acc. induction l as [|x l IH]; intros acc.
  - exists 1. reflexivity.
  - simpl. destruct (fn acc x) as [acc'|e] eqn:Hx.
    + destruct (IH acc') as [n0 H]. exists (S n0). intros k.
      simpl. rewrite Hx. apply H.
    + exists 1. intros k. simpl. rewrite Hx. reflexivity.
Qed.

(** With step functions that do not throw, the list meanings are the
    usual list functions. *)

Lemma map_list_pure {T U} (f : T -> U) l :
  map_list (E:=E) (pure f) l = (List.map f l, Completed).
Proof. induction l as [|x l IH]; simpl; [|rewrite IH]; reflexivity. Qed.

Lemma filter_list_pure {T} (p : T -> bool) l :
  filter_list (E:=E) (pure p) l = (List.filter p l, Completed).
Proof.
  induction l as [|x l IH]; simpl; [reflexivity|].
  rewrite IH. destruct (p x); reflexivity.
Qed.

Lemma reduce_list_pure {T U} (f : U -> T -> U) l acc :
  reduce_list (E:=E) (pure2 f) acc l = Ok (fold_left f l acc).
Proof. revert acc. induction l as [|x l IH]; simpl; auto. Qed.

Lemma scan_list_pure {T U} (f : U -> T -> U) l acc :
  scan_list (E:=E) (pure2 f) acc l = (running f acc l, Completed).
Proof.
  revert acc. induction l as [|x l IH]; intros; simpl; [|rewrite IH];
    reflexivity.
Qed.

Lemma filterMap_list_pure {T U} (f : T -> nullable U) l :
  filterMap_list (E:=E) (pure f) l
  = (List.filter present (List.map f l), Completed).
Proof.
  induction l as [|x l IH]; simpl; [reflexivity|].
  rewrite IH. destruct (f x); reflexivity.
Qed.

Lemma flatMap_list_pure {T U} (f : T -> list U) l :
  flatMap_list (E:=E) (pure f) l = (List.concat (List.map f l), Completed).
Proof. induction l as [|x l IH]; simpl; [|rewrite IH]; reflexivity. Qed.

Lemma take_list_firstn {T} (n count : Z) (l : list T) :
  take_list (E:=E) n count l = (firstn (Z.to_nat (n - count)) l, Completed).
Proof.
  revert count. induction l as [|x l IH]; intros count; simpl.
  - rewrite firstn_nil. reflexivity.
  - destruct (Z.leb_spec n count).
    + replace (Z.to_nat (n - count)) with O by lia. reflexivity.
    + rewrite IH. replace (Z.to_nat (n - count))
        with (S (Z.to_nat (n - (count + 1)))) by lia.
      reflexivity.
Qed.

Lemma takeWhile_list_pure {T} (p : T -> bool) l :
  takeWhile_list (E:=E) (pure p) l = (longest_prefix p l, Completed).
Proof.
  induction l as [|x l IH]; simpl; [reflexivity|].
  rewrite IH. destruct (p x); reflexivity.
Qed.

Lemma dedupe_list_pure {T} (key : T -> string) before l :
  dedupe_list (E:=E) (pure key) (list_to_set (List.map key before)) l
  = (first_occurrences key before l, Completed).
Proof.
  revert before. induction l as [|x l IH]; intros before; simpl;
    [reflexivity|].
  assert (Hset : ({[key x]} ∪ list_to_set (List.map key before) : gset string)
                 = list_to_set (List.map key (before ++ [x]))).
  { rewrite List.map_app, list_to_set_app_L. simpl.
    rewrite union_empty_r_L. apply union_comm_L. }
  assert (Hmem : bool_decide
                   (key x ∈ (list_to_set (List.map key before) : gset string))
                 = bool_decide (key x ∈ List.map key before)).
  { apply bool_decide_ext. apply elem_of_list_to_set. }
  rewrite Hmem. destruct (bool_decide (key x ∈ List.map key before)) eqn:Hk.
  - rewrite <- IH. f_equal. rewrite <- Hset.
    apply bool_decide_eq_true in Hk.
    apply (elem_of_list_to_set (C:=gset string)) in Hk.
    symmetry. apply subseteq_union_1_L. apply singleton_subseteq_l, Hk.
  - rewrite Hset, IH. reflexivity.
Qed.
(** ** The suspending combinators on promoted arrays *)

Lemma toAsync_from {T} (l0 l : list T) ph :
  at_loop ph ->
  collects_from (toAsync (E:=E) (of_list l0)) (ph, l) (l, Completed).
Proof.
  revert ph. induction l as [|x l IH]; intros ph Hph.
  - open_phase ph; finished.
  - eapply collects_tau with (s':=(AReceived x, l)); [open_phase ph; ev|].
    eapply collects_yield with (r:=(l, Completed)); [ev|].
    apply IH. exact I.
Qed.

Lemma mapAsync_await {T U} (iter : Iterator E T) fn d (x : result E U) su r :
  collects_from (mapAsync iter fn) (AAwaiting O x, su) r ->
  collects_from (mapAsync iter fn) (AAwaiting d x, su) r.
Proof. intros H. induction d as [|d IH]; [exact H|]. tau. exact IH. Qed.

Lemma mapAsync_from {T U} timing (fn : T -> result E U) l0 l ph ph' :
  at_loop ph -> at_loop ph' ->
  collects_from (mapAsync (toAsync (of_list l0)) (suspending timing fn))
    (ph, (ph', l)) (map_list fn l).
Proof.
  revert ph ph'. induction l as [|x l IH]; intros ph ph' Hph Hph'.
  - open_phase ph; open_phase ph'; finished.
  - eapply collects_tau with (s':=(APulling, (AReceived x, l)));
      [open_phase ph; open_phase ph'; ev|].
    tau. simpl.
    destruct (timing x) as [d|] eqn:Ht; destruct (fn x) as [r|e] eqn:Hx.
    + tau. apply mapAsync_await. yield. apply IH; exact I.
    + tau. apply mapAsync_await. throw.
    + tau. yield. apply IH; exact I.
    + throw.
Qed.

Lemma filterAsync_await {T} (iter : Iterator E T) fn d
  (x : T * result E bool) su r :
  collects_from (filterAsync iter fn) (AAwaiting O x, su) r ->
  collects_from (filterAsync iter fn) (AAwaiting d x, su) r.
Proof. intros H. induction d as [|d IH]; [exact H|]. tau. exact IH. Qed.

Lemma filterAsync_from {T} timing (predicate : T -> result E bool)
  l0 l ph ph' :
  at_loop ph -> at_loop ph' ->
  collects_from
    (filterAsync (toAsync (of_list l0)) (suspending timing predicate))
    (ph, (ph', l)) (filter_list predicate l).
Proof.
  revert ph ph'. induction l as [|x l IH]; intros ph ph' Hph Hph'.
  - open_phase ph; open_phase ph'; finished.
  - eapply collects_tau with (s':=(APulling, (AReceived x, l)));
      [open_phase ph; open_phase ph'; ev|].
    tau. simpl.
    destruct (timing x) as [d|] eqn:Ht;
      destruct (predicate x) as [[|]|e] eqn:Hx.
    + tau. apply filterAsync_await. yield. apply IH; exact I.
    + tau. apply filterAsync_await. tau. apply IH; exact I.
    + tau. apply filterAsync_await. throw.
    + tau. yield. apply IH; exact I.
    + tau. tau. apply IH; exact I.
    + throw.
Qed.

Lemma scanAsync_await {T U} (iter : Iterator E T) fn initial d
  (x : result E U) acc su r :
  collects_from (scanAsync iter fn initial) (AAwaiting O x, acc, su) r ->
  collects_from (scanAsync iter fn initial) (AAwaiting d x, acc, su) r.
Proof. intros H. induction d as [|d IH]; [exact H|]. tau. exact IH. Qed.

Lemma scanAsync_loop {T U} timing (fn : U -> T -> result E U) initial
  l0 l ph ph' acc :
  ph = APulling \/ ph = ASuspended -> at_loop ph' ->
  collects_from
    (scanAsync (toAsync (of_list l0)) (suspending2 timing fn) initial)
    (ph, acc, (ph', l)) (scan_list fn acc l).
Proof.
  revert ph ph' acc. induction l as [|x l IH]; intros ph ph' acc Hph Hph'.
  - destruct Hph; subst; open_phase ph'; finished.
  - eapply collects_tau with (s':=(APulling, acc, (AReceived x, l)));
      [destruct Hph; subst; open_phase ph'; ev|].
    tau. simpl.
    destruct (timing acc x) as [d|] eqn:Ht;
      destruct (fn acc x) as [r|e] eqn:Hx.
    + tau. apply scanAsync_await. yield. apply IH; [auto|exact I].
    + tau. apply scanAsync_await. throw.
    + tau. yield. apply IH; [auto|exact I].
    + throw.
Qed.

Lemma scanAsync_from {T U} timing (fn : U -> T -> result E U) initial l :
  collects (scanAsync (toAsync (of_list l)) (suspending2 timing fn) initial)
    (emit initial (scan_list fn initial l)).
Proof.
  unfold collects. eapply collects_yield; [reflexivity|].
  apply scanAsync_loop; [auto|exact I].
Qed.

Lemma filterMapAsync_await {T U} (iter : Iterator E T) fn d
  (x : result E (nullable U)) su r :
  collects_from (filterMapAsync iter fn) (AAwaiting O x, su) r ->
  collects_from (filterMapAsync iter fn) (AAwaiting d x, su) r.
Proof. intros H. induction d as [|d IH]; [exact H|]. tau. exact IH. Qed.

Lemma filterMapAsync_from {T U} timing (fn : T -> result E (nullable U))
  l0 l ph ph' :
  at_loop ph -> at_loop ph' ->
  collects_from
    (filterMapAsync (toAsync (of_list l0)) (suspending timing fn))
    (ph, (ph', l)) (filterMap_list fn l).
Proof.
  revert ph ph'. induction l as [|x l IH]; intros ph ph' Hph Hph'.
  - open_phase ph; open_phase ph'; finished.
  - eapply collects_tau with (s':=(APulling, (AReceived x, l)));
      [open_phase ph; open_phase ph'; ev|].
    tau. simpl.
    destruct (timing x) as [d|] eqn:Ht; destruct (fn x) as [r|e] eqn:Hx;
      try destruct (loose_eq_null r) eqn:Hr.
    + tau. apply filterMapAsync_await. tau. apply IH; exact I.
    + tau. apply filterMapAsync_await. yield. apply IH; exact I.
    + tau. apply filterMapAsync_await. throw.
    + tau. tau. apply IH; exact I.
    + tau. yield. apply IH; exact I.
    + throw.
Qed.

Lemma takeAsync_from {T} (n : Z) (l0 l : list T) ph ph' count :
  at_loop ph -> at_loop ph' ->
  collects_from (takeAsync (E:=E) (toAsync (of_list l0)) n)
    (ph, count, (ph', l))
    (take_list n (match ph with ASuspended => count + 1 | _ => count end) l).
Proof.
  revert ph ph' count. induction l as [|x l IH]; intros ph ph' count Hph Hph'.
  - open_phase ph; open_phase ph'; finished.
  - set (c := (match ph with ASuspended => count + 1 | _ => count end)%Z).
    eapply collects_tau with (s':=(APulling, c, (AReceived x, l)));
      [subst c; open_phase ph; open_phase ph'; ev|].
    tau. simpl. destruct (n <=? c)%Z eqn:Hn.
    + finished.
    + yield. apply (IH ASuspended ASuspended c); exact I.
Qed.

Lemma takeWhileAsync_await {T} (iter : Iterator E T) fn d
  (x : T * result E bool) su r :
  collects_from (takeWhileAsync iter fn) (AAwaiting O x, su) r ->
  collects_from (takeWhileAsync iter fn) (AAwaiting d x, su) r.
Proof. intros H. induction d as [|d IH]; [exact H|]. tau. exact IH. Qed.

Lemma takeWhileAsync_from {T} timing (predicate : T -> result E bool)
  l0 l ph ph' :
  at_loop ph -> at_loop ph' ->
  collects_from
    (takeWhileAsync (toAsync (of_list l0)) (suspending timing predicate))
    (ph, (ph', l)) (takeWhile_list predicate l).
Proof.
  revert ph ph'. induction l as [|x l IH]; intros ph ph' Hph Hph'.
  - open_phase ph; open_phase ph'; finished.
  - eapply collects_tau with (s':=(APulling, (AReceived x, l)));
      [open_phase ph; open_phase ph'; ev|].
    tau. simpl.
    destruct (timing x) as [d|] eqn:Ht;
      destruct (predicate x) as [[|]|e] eqn:Hx.
    + tau. apply takeWhileAsync_await. yield. apply IH; exact I.
    + tau. apply takeWhileAsync_await. finished.
    + tau. apply takeWhileAsync_await. throw.
    + tau. yield. apply IH; exact I.
    + tau. finished.
    + throw.
Qed.

Lemma dedupeAsync_from {T} (getKey : T -> result E string) l0 l ph ph' seen :
  at_loop ph -> at_loop ph' ->
  collects_from (dedupeAsync (toAsync (of_list l0)) getKey)
    (ph, seen, (ph', l)) (dedupe_list getKey seen l).
Proof.
  revert ph ph' seen. induction l as [|x l IH]; intros ph ph' seen Hph Hph'.
  - open_phase ph; open_phase ph'; finished.
  - eapply collects_tau with (s':=(APulling, seen, (AReceived x, l)));
      [open_phase ph; open_phase ph'; ev|].
    tau. simpl. destruct (getKey x) as [key|e] eqn:Hx;
      try destruct (bool_decide (key ∈ seen)) eqn:Hk.
    + tau. apply IH; exact I.
    + yield. apply IH; exact I.
    + throw.
Qed.


Lemma reduceAsync_await {T U} (iter : Iterator E T) fn d (x : result E U)
  acc su n :
  reduceAsync_from iter fn (d + n) (AAwaiting d x) acc su
  = reduceAsync_from iter fn n (AAwaiting O x) acc su.
Proof. induction d as [|d IH]; simpl; auto. Qed.

Lemma reduceAsync_from_list {T U} timing (fn : U -> T -> result E U)
  l0 l ph ph' acc :
  at_loop ph -> at_loop ph' ->
  exists n0, forall k,
    reduceAsync_from (toAsync (of_list l0)) (suspending2 timing fn)
      (n0 + k) ph acc (ph', l)
    = Some (reduce_list fn acc l).
Proof.
  revert ph ph' acc. induction l as [|x l IH]; intros ph ph' acc Hph Hph'.
  - exists 1. intros k. open_phase ph; open_phase ph'; reflexivity.
  - simpl. unfold suspending2, suspending.
    destruct (timing acc x) as [d|] eqn:Ht;
      destruct (fn acc x) as [r|e] eqn:Hx.
    + destruct (IH APulling ASuspended r I I) as [n0 H].
      exists (4 + d + n0). intros k.
      replace (4 + d + n0 + k) with (S (S (S (d + S (n0 + k))))) by lia.
      assert (Hstep : forall m,
                 reduceAsync_from (toAsync (of_list l0))
                   (suspending2 timing fn) (S (S (S m))) ph acc (ph', x :: l)
                 = reduceAsync_from (toAsync (of_list l0))
                     (suspending2 timing fn) m (AAwaiting d (fn acc x)) acc
                     (ASuspended, l)).
      { intros m. open_phase ph; open_phase ph'; simpl;
          unfold suspending2, suspending; rewrite Ht; reflexivity. }
      rewrite Hstep, reduceAsync_await, Hx. simpl. apply H.
    + exists (4 + d). intros k.
      replace (4 + d + k) with (S (S (S (d + S k)))) by lia.
      assert (Hstep : forall m,
                 reduceAsync_from (toAsync (of_list l0))
                   (suspending2 timing fn) (S (S (S m))) ph acc (ph', x :: l)
                 = reduceAsync_from (toAsync (of_list l0))
                     (suspending2 timing fn) m (AAwaiting d (fn acc x)) acc
                     (ASuspended, l)).
      { intros m. open_phase ph; open_phase ph'; simpl;
          unfold suspending2, suspending; rewrite Ht; reflexivity. }
      rewrite Hstep, reduceAsync_await, Hx. reflexivity.
    + destruct (IH APulling ASuspended r I I) as [n0 H].
      exists (4 + n0). intros k.
      open_phase ph; open_phase ph'; simpl;
        unfold suspending2, suspending; rewrite Ht, Hx; apply H.
    + exists 3. intros k.
      open_phase ph; open_phase ph'; simpl;
        unfold suspending2, suspending; rewrite Ht, Hx; reflexivity.
Qed.
(** ** More fuel changes nothing *)

Lemma run_mono {T} (g : Iterator E T) n s out fin sf :
  run g n s = (out, Some fin, sf) ->
  forall k, run g (n + k) s = (out, Some fin, sf).
Proof.
  revert s out. induction n as [|n IH]; intros s out H k; [discriminate|].
  simpl in *. destruct (step g s) as [s' o]. destruct o as [v| | |e]; auto.
  destruct (run g n s') as [[o f] s0] eqn:Hr.
  inversion H; subst. rewrite (IH _ _ Hr). reflexivity.
Qed.

Lemma settles_of_run {T} (g : Iterator E T) n s out fin sf :
  run g n s = (out, Some fin, sf) -> settles g s out fin sf.
Proof. intros H. exists n. apply run_mono, H. Qed.

Lemma collects_of_run {T} (g : Iterator E T) n s out fin :
  (run g n s).1 = (out, Some fin) -> collects_from g s (out, fin).
Proof.
  intros H. destruct (run g n s) as [[o f] sf] eqn:Hr. simpl in H.
  inversion H; subst. exists sf. eapply settles_of_run, Hr.
Qed.

Lemma next_mono {T} (g : Iterator E T) n s r :
  next g n s = Some r -> forall k, next g (n + k) s = Some r.
Proof.
  revert s. induction n as [|n IH]; intros s H k; [discriminate|].
  simpl in *. destruct (step g s) as [s' o]. destruct o; auto.
Qed.

Lemma request_mono {T} (g : Iterator E T) n i s o :
  request g n i s = Some o -> forall k, request g (n + k) i s = Some o.
Proof.
  revert s. induction i as [|i IH]; intros s H k; [discriminate|].
  simpl in *. destruct (next g n s) as [[s' o']|] eqn:Hn; [|discriminate].
  rewrite (next_mono _ _ _ Hn). destruct i; auto.
Qed.

Lemma request_step_tau {T} (g : Iterator E T) n i s s' o :
  step g s = (s', Tau) ->
  request g n (S i) s' = Some o -> request g (S n) (S i) s = Some o.
Proof.
  intros Hs H. simpl in *. rewrite Hs.
  destruct (next g n s') as [[s'' o']|]; [|discriminate].
  destruct i; [exact H|].
  replace (S n) with (n + 1) by lia. apply request_mono, H.
Qed.

Lemma request_step_yield {T} (g : Iterator E T) n i s s' v o :
  step g s = (s', Yield v) ->
  request g (S n) (S i) s' = Some o -> request g (S n) (S (S i)) s = Some o.
Proof.
  intros Hs H.
  change (request g (S n) (S (S i)) s)
    with (match next g (S n) s with
          | None => None
          | Some (s', _) => request g (S n) (S i) s'
          end).
  cbn [next]. rewrite Hs. exact H.
Qed.

(** After the elements [out], the next request gets the end. *)
Lemma settles_request {T} (g : Iterator E T) s out fin sf :
  settles g s out fin sf ->
  exists n, request g n (S (length out)) s
            = Some (match fin with Completed => Done | Failed e => Throw e end).
Proof.
  intros [n Hn]. revert s out Hn.
  induction n as [|n IH]; intros s out Hn.
  - specialize (Hn O). discriminate.
  - apply run_S_inv in Hn. destruct (step g s) as [s' o] eqn:Hs.
    destruct o as [v| | |e].
    + destruct Hn as [out' [-> Hn]]. destruct (IH _ _ Hn) as [m Hm].
      exists (S m). change (length (v :: out')) with (S (length out')).
      eapply request_step_yield; [exact Hs|].
      replace (S m) with (m + 1) by lia. apply request_mono, Hm.
    + destruct (IH _ _ Hn) as [m Hm]. exists (S m).
      eapply request_step_tau; eauto.
    + destruct Hn as (-> & -> & _). exists 1. simpl. rewrite Hs. reflexivity.
    + destruct Hn as (-> & -> & _). exists 1. simpl. rewrite Hs. reflexivity.
Qed.

Lemma settles_exhausted {T} (g : Iterator E T) s out fin sf :
  closes g -> settles g s out fin sf -> exhausted g sf.
Proof.
  intros Hc [n Hn]. revert s out Hn.
  induction n as [|n IH]; intros s out Hn.
  - specialize (Hn O). discriminate.
  - apply run_S_inv in Hn. destruct (step g s) as [s' o] eqn:Hs.
    destruct o as [v| | |e].
    + destruct Hn as [out' [-> Hn]]. eauto.
    + eauto.
    + destruct Hn as (_ & _ & ->). apply (Hc _ _ _ Hs).
    + destruct Hn as (_ & _ & ->). apply (Hc _ _ _ Hs).
Qed.

Lemma collects_fails_after {T} (g : Iterator E T) out e :
  closes g -> collects g (out, Failed e) -> fails_after g out e.
Proof.
  intros Hc [sf Hs]. simpl in Hs. split.
  - exists sf. split; [exact Hs|]. eapply settles_exhausted; eauto.
  - destruct (settles_request Hs) as [n Hn].
    exists n. apply request_mono, Hn.
Qed.


(** ** Every combinator closes *)

Ltac closes_tac :=
  intros s s' o;
  repeat match goal with
         | s : (_ * _)%type |- _ => destruct s
         end;
  simpl;
  repeat match goal with
         | |- context [match ?x with _ => _ end] => destruct x
         end;
  intros H; inversion H; subst; try exact I; reflexivity.

Lemma map_closes {T U} (iter : Iterator E T) (fn : T -> result E U) :
  closes (map iter fn).
Proof. closes_tac. Qed.

Lemma filter_closes {T} (iter : Iterator E T) (p : T -> result E bool) :
  closes (filter iter p).
Proof. closes_tac. Qed.

Lemma scan_closes {T U} (iter : Iterator E T) (fn : U -> T -> result E U) i :
  closes (scan iter fn i).
Proof. closes_tac. Qed.

Lemma filterMap_closes {T U} (iter : Iterator E T)
  (fn : T -> result E (nullable U)) :
  closes (filterMap iter fn).
Proof. closes_tac. Qed.

Lemma flatMap_closes {T U} (iter : Iterator E T)
  (fn : T -> result E (Iterator E U)) :
  closes (flatMap iter fn).
Proof. closes_tac. Qed.

Lemma takeWhile_closes {T} (iter : Iterator E T) (p : T -> result E bool) :
  closes (takeWhile iter p).
Proof. closes_tac. Qed.

Lemma dedupe_closes {T} (iter : Iterator E T) (k : T -> result E string) :
  closes (dedupe iter k).
Proof. closes_tac. Qed.

Lemma scanAsync_closes {T U} (iter : Iterator E T)
  (fn : U -> T -> result E (awaitable E U)) i :
  closes (scanAsync iter fn i).
Proof. closes_tac. Qed.

(** ** [map], [filter], [reduce] with step functions that do not throw *)

Lemma map_collects {T U} (f : T -> U) (l : list T) :
  collects (map (E:=E) (of_list l) (pure f)) (List.map f l, Completed).
Proof.
  assert (H : collects_from (map (E:=E) (of_list l) (pure f)) (Fresh, l)
                (map_list (pure f) l))
    by (apply map_from; congruence).
  rewrite map_list_pure in H. exact H.
Qed.

Lemma filter_collects {T} (p : T -> bool) (l : list T) :
  collects (filter (E:=E) (of_list l) (pure p)) (List.filter p l, Completed).
Proof.
  assert (H : collects_from (filter (E:=E) (of_list l) (pure p)) (Fresh, l)
                (filter_list (pure p) l))
    by (apply filter_from; congruence).
  rewrite filter_list_pure in H. exact H.
Qed.

Lemma reduce_returns {T U} (f : U -> T -> U) initial (l : list T) :
  returns (reduce (E:=E) (of_list l) (pure2 f) initial)
    (Ok (fold_left f l initial)).
Proof.
  unfold returns, reduce. rewrite <- reduce_list_pure.
  apply reduce_from_list.
Qed.

(** ** [scan] *)

Lemma scan_first_answer {T U} (iter : Iterator E T)
  (fn : U -> T -> result E U) initial :
  answers (scan iter fn initial) 1 (Yield initial).
Proof. exists 1. intros j. reflexivity. Qed.

Lemma scanAsync_first_answer {T U} (iter : Iterator E T)
  (fn : U -> T -> result E (awaitable E U)) initial :
  answers (scanAsync iter fn initial) 1 (Yield initial).
Proof. exists 1. intros j. reflexivity. Qed.

Lemma running_length {T U} (f : U -> T -> U) acc (l : list T) :
  length (running f acc l) = length l.
Proof. revert acc. induction l; intros; simpl; auto. Qed.

Lemma running_nth {T U} (f : U -> T -> U) acc (l : list T) k :
  nth_error (acc :: running f acc l) k
  = if k <=? length l then Some (fold_left f (firstn k l) acc) else None.
Proof.
  revert acc k. induction l as [|x l IH]; intros acc k.
  - destruct k as [|[|k]]; reflexivity.
  - destruct k as [|k]; [reflexivity|].
    change (nth_error (acc :: running f acc (x :: l)) (S k))
      with (nth_error (f acc x :: running f (f acc x) l) k).
    rewrite IH. reflexivity.
Qed.

(** C4.  [scan(s, fn, i)] yields [i] first, unconditionally: the first
    request is answered with [i] whatever the source and whatever [fn]
    does; the spread of [scan] over the elements [l] is [i] followed by
    one updated accumulator per element ([k] elements in, the accumulator
    is the fold of the first [k]), so it has [length l + 1] elements, and
    over the empty source it is [[i]]. *)
Theorem scan_initial_then_accumulators :
  forall T U (f : U -> T -> U) (i : U) (l : list T),
    (forall (iter : Iterator E T) (fn : U -> T -> result E U),
        answers (scan iter fn i) 1 (Yield i))
    /\ collects (scan (E:=E) (of_list l) (pure2 f) i) (i :: running f i l, Completed)
    /\ length (i :: running f i l) = length l + 1
    /\ (forall k, nth_error (i :: running f i l) k
                  = if k <=? length l
                    then Some (fold_left f (firstn k l) i) else None)
    /\ collects (scan (E:=E) (of_list []) (pure2 f) i) ([i], Completed).
Proof.
  intros. split; [|split; [|split; [|split]]].
  - intros. apply scan_first_answer.
  - pose proof (scan_from (pure2 f) i l) as H.
    rewrite scan_list_pure in H. exact H.
  - simpl. rewrite running_length. lia.
  - apply running_nth.
  - apply (scan_from (pure2 f) i []).
Qed.

(** ** [take] *)

(** C5.  The spread of [take(s, n)] over the elements [l] is the first
    [min(n, length l)] elements of [l], in order; [take(s, 0)] and
    [take([], 5)] yield nothing, and so does [take(s, n)] for every
    [n <= 0] (written [- m]).  [n] is an integer. *)
Theorem take_first_elements :
  forall T (l : list T) (n : Z),
    collects (take (E:=E) (of_list l) n) (firstn (Z.to_nat n) l, Completed)
    /\ length (firstn (Z.to_nat n) l) = Nat.min (Z.to_nat n) (length l)
    /\ collects (take (E:=E) (of_list l) 0) ([], Completed)
    /\ collects (take (E:=E) (of_list ([] : list T)) 5) ([], Completed)
    /\ (forall m : nat,
           collects (take (E:=E) (of_list l) (- Z.of_nat m)) ([], Completed)).
Proof.
  intros T.
  assert (H : forall (l : list T) n,
             collects (take (E:=E) (of_list l) n)
               (firstn (Z.to_nat n) l, Completed)).
  { intros l n.
    assert (H : collects_from (take (E:=E) (of_list l) n) (Fresh, 0%Z, l)
                  (take_list n 0 l))
      by (apply take_from with (ph:=Fresh) (count:=0%Z); congruence).
    rewrite take_list_firstn, Z.sub_0_r in H. exact H. }
  intros l n. split; [apply H|]. split; [apply length_firstn|].
  split; [apply (H l 0%Z)|]. split; [apply (H [] 5%Z)|].
  intros m. specialize (H l (- Z.of_nat m)%Z).
  replace (Z.to_nat (- Z.of_nat m)) with O in H by lia. exact H.
Qed.
(** ** [takeWhile] *)

Ltac sdone := eapply settles_done; ev.

Lemma takeWhile_counted {T} (p : T -> bool) (l0 l : list T) ph c :
  ph <> Closed ->
  settles (takeWhile (E:=E) (counted (of_list l0)) (pure p)) (ph, (c, l))
    (longest_prefix p l) Completed
    (Closed, (S (c + length (longest_prefix p l)),
              skipn (S (length (longest_prefix p l))) l)).
Proof.
  revert ph c. induction l as [|x l IH]; intros ph c Hph.
  - simpl. rewrite Nat.add_0_r. open_phase ph; sdone.
  - simpl. destruct (p x) eqn:Hx.
    + specialize (IH Suspended (S c) ltac:(congruence)).
      replace (S (c + length (x :: longest_prefix p l)))
        with (S (S c + length (longest_prefix p l))) by (simpl; lia).
      change (skipn (S (length (x :: longest_prefix p l))) (x :: l))
        with (skipn (S (length (longest_prefix p l))) l).
      eapply settles_yield; [|exact IH]. open_phase ph; ev.
    + simpl. rewrite Nat.add_0_r. open_phase ph; sdone.
Qed.

Lemma longest_prefix_spec {T} (p : T -> bool) (l : list T) :
  exists rest,
    l = longest_prefix p l ++ rest
    /\ Forall (fun x => p x = true) (longest_prefix p l)
    /\ match rest with
       | [] => True
       | x :: _ => p x = false
       end.
Proof.
  induction l as [|x l (rest & Hl & Hall & Hrest)].
  - exists []. repeat split. constructor.
  - simpl. destruct (p x) eqn:Hx.
    + exists rest. split; [simpl; congruence|]. split; [|exact Hrest].
      constructor; assumption.
    + exists (x :: l). repeat split; [constructor|exact Hx].
Qed.

(** C6.  [takeWhile(s, p)] over the elements [l] yields the longest
    prefix of [l] on which [p] holds and then completes.  The element
    that [p] rejects is not yielded, and pulling it (or learning that the
    source is done) is the last call of [next()] on the source: the source
    has answered [length prefix + 1] calls, and the generator is exhausted,
    so nothing later is examined.  On [[1,2,3,4,1]] with [n < 3] the
    result is [[1,2]]. *)
Theorem takeWhile_longest_prefix :
  forall T (p : T -> bool) (l : list T),
    let g := takeWhile (E:=E) (counted (of_list l)) (pure p) in
    let sf := (Closed, (S (length (longest_prefix p l)),
                        skipn (S (length (longest_prefix p l))) l)) in
    settles g (cur g) (longest_prefix p l) Completed sf
    /\ exhausted g sf
    /\ (exists rest,
           l = longest_prefix p l ++ rest
           /\ Forall (fun x => p x = true) (longest_prefix p l)
           /\ match rest with
              | [] => True
              | x :: _ => p x = false
              end)
    /\ collects (takeWhile (E:=E) (of_list [1; 2; 3; 4; 1]%Z)
                   (pure (fun n => n <? 3)%Z))
         ([1; 2]%Z, Completed).
Proof.
  intros T p l g sf. split; [|split; [|split]].
  - apply takeWhile_counted with (ph:=Fresh) (c:=O). congruence.
  - reflexivity.
  - apply longest_prefix_spec.
  - assert (H : collects_from
                   (takeWhile (E:=E) (of_list [1; 2; 3; 4; 1]%Z)
                      (pure (fun n => n <? 3)%Z))
                   (Fresh, [1; 2; 3; 4; 1]%Z)
                   (takeWhile_list (pure (fun n => n <? 3)%Z)
                      [1; 2; 3; 4; 1]%Z))
      by (apply takeWhile_from; congruence).
    exact H.
Qed.

(** ** [take] and the source *)

Lemma take_counted {T} (n : Z) (l0 : list T) m :
  forall (l : list T) ph c count,
    ph <> Closed ->
    (n - match ph with Suspended => count + 1 | _ => count end)%Z
    = Z.of_nat m ->
    m <= length l ->
    settles (take (E:=E) (counted (of_list l0)) n) (ph, count, (c, l))
      (firstn m l) Completed
      (Closed, n, (S (c + m), skipn (S m) l)).
Proof.
  induction m as [|m IH]; intros l ph c count Hph Hn Hm.
  - rewrite Nat.add_0_r. simpl firstn. eapply settles_done.
    destruct l as [|x l]; open_phase ph; simpl;
      try (replace (n <=? _)%Z with true by (symmetry; apply Z.leb_le; lia));
      repeat f_equal; lia.
  - destruct l as [|x l]; [simpl in Hm; lia|]. simpl in Hm.
    set (count' := (match ph with Suspended => count + 1 | _ => count end)%Z)
      in *.
    assert (IH' := IH l Suspended (S c) count' ltac:(congruence)
                     ltac:(lia) ltac:(lia)).
    replace (S (c + S m)) with (S (S c + m)) by lia.
    change (skipn (S (S m)) (x :: l)) with (skipn (S m) l).
    simpl firstn. eapply settles_yield; [|exact IH'].
    subst count'. open_phase ph; simpl;
      (replace (n <=? _)%Z with false by (symmetry; apply Z.leb_gt; lia));
      reflexivity.
Qed.

(** C1 (what the code does).  When the source has at least [n] elements
    ([0 <= n]), draining [take(s, n)] yields the first [n] elements and
    makes [n + 1] calls of [next()] on the source, not [n]: after the
    [n]-th element the loop asks the source again, and only then tests
    [count >= n]; an element it receives there is dropped. *)
Theorem take_pulls_one_past_n :
  forall T (l : list T) (n : Z),
    (0 <= n)%Z -> Z.to_nat n <= length l ->
    let g := take (E:=E) (counted (of_list l)) n in
    settles g (cur g) (firstn (Z.to_nat n) l) Completed
      (Closed, n, (S (Z.to_nat n), skipn (S (Z.to_nat n)) l)).
Proof.
  intros T l n Hn Hl g.
  apply take_counted with (m:=Z.to_nat n) (ph:=Fresh) (c:=O) (count:=0%Z);
    [congruence|lia|exact Hl].
Qed.
(** ** [dedupe] *)

Lemma first_occurrences_app {T} (key : T -> string) before pre post :
  first_occurrences key before (pre ++ post)
  = first_occurrences key before pre
    ++ first_occurrences key (before ++ pre) post.
Proof.
  revert before. induction pre as [|y pre IH]; intros before; simpl.
  - rewrite app_nil_r. reflexivity.
  - rewrite IH, <- app_assoc. simpl.
    destruct (bool_decide (key y ∈ List.map key before)); reflexivity.
Qed.

Lemma first_occurrences_fresh {T} (key : T -> string) before l x :
  x ∈ first_occurrences key before l -> key x ∉ List.map key before.
Proof.
  revert before. induction l as [|y l IH]; intros before Hx; simpl in Hx.
  - inversion Hx.
  - assert (Hrec : x ∈ first_occurrences key (before ++ [y]) l ->
                   key x ∉ List.map key before).
    { intros H Hin. apply (IH _ H).
      rewrite List.map_app. apply elem_of_app. left. exact Hin. }
    destruct (bool_decide (key y ∈ List.map key before)) eqn:Hy.
    + auto.
    + apply elem_of_cons in Hx as [->|Hx]; [|auto].
      apply bool_decide_eq_false in Hy. exact Hy.
Qed.

Lemma first_occurrences_NoDup {T} (key : T -> string) before l :
  NoDup (List.map key (first_occurrences key before l)).
Proof.
  revert before. induction l as [|y l IH]; intros before; simpl.
  - constructor.
  - destruct (bool_decide (key y ∈ List.map key before)); [apply IH|].
    simpl. constructor; [|apply IH].
    intros Hin. apply list_elem_of_In, in_map_iff in Hin as (z & Hz & Hin).
    apply list_elem_of_In, first_occurrences_fresh in Hin. apply Hin.
    rewrite List.map_app, Hz. apply elem_of_app. right. simpl. left.
Qed.

Lemma first_occurrences_sublist {T} (key : T -> string) before l :
  sublist (first_occurrences key before l) l.
Proof.
  revert before. induction l as [|y l IH]; intros before; simpl.
  - constructor.
  - destruct (bool_decide (key y ∈ List.map key before));
      [apply sublist_cons|apply sublist_skip]; apply IH.
Qed.

Lemma dedupe_collects {T} (key : T -> string) (l : list T) :
  collects (dedupe (E:=E) (of_list l) (pure key))
    (first_occurrences key [] l, Completed).
Proof.
  assert (H : collects_from (dedupe (E:=E) (of_list l) (pure key))
                (Fresh, ∅, l) (dedupe_list (pure key) ∅ l))
    by (apply dedupe_from; congruence).
  pose proof (dedupe_list_pure key [] l) as Hl. simpl in Hl.
  rewrite Hl in H. exact H.
Qed.

(** C7.  [dedupe(s, getKey)] over the elements [l] yields, in the order
    of [l], exactly the elements whose key no earlier element has (the
    element at any place, after [pre], is kept when its key is not a key
    of [pre] and dropped otherwise, whatever else it holds), so each key
    comes out once.  Over elements with ids 1, 2, 1, 3 the elements with
    keys 1, 2, 3 come out, the first holder of each. *)
Theorem dedupe_first_occurrences :
  (forall T (key : T -> string) (l : list T),
      collects (dedupe (E:=E) (of_list l) (pure key))
        (first_occurrences key [] l, Completed)
      /\ NoDup (List.map key (first_occurrences key [] l))
      /\ sublist (first_occurrences key [] l) l)
  /\ (forall T (key : T -> string) (pre : list T) (x : T) (post : list T),
         first_occurrences key [] (pre ++ x :: post)
         = first_occurrences key [] pre
           ++ (if bool_decide (key x ∈ List.map key pre) then [] else [x])
           ++ first_occurrences key (pre ++ [x]) post)
  /\ collects
       (dedupe (E:=E)
          (of_list [("1", "Alice"); ("2", "Bob"); ("1", "Alice (duplicate)");
                    ("3", "Charlie")]%string)
          (pure fst))
       ([("1", "Alice"); ("2", "Bob"); ("3", "Charlie")]%string, Completed).
Proof.
  split; [|split].
  - intros T key l. split; [apply dedupe_collects|]. split.
    + apply first_occurrences_NoDup.
    + apply first_occurrences_sublist.
  - intros T key pre x post.
    rewrite first_occurrences_app. simpl.
    destruct (bool_decide (key x ∈ List.map key pre)); reflexivity.
  - pose proof (dedupe_collects (fst (B:=string))
                  [("1", "Alice"); ("2", "Bob"); ("1", "Alice (duplicate)");
                   ("3", "Charlie")]%string) as H.
    assert (Hc : first_occurrences (fst (B:=string)) []
                   [("1", "Alice"); ("2", "Bob"); ("1", "Alice (duplicate)");
                    ("3", "Charlie")]%string
                 = [("1", "Alice"); ("2", "Bob"); ("3", "Charlie")]%string)
      by (vm_compute; reflexivity).
    rewrite Hc in H. exact H.
Qed.
(** ** [flatMap] and [flatten] of [map] *)

Lemma flatMap_flatten_step {T U} (iter : Iterator E T)
  (fn : T -> result E (Iterator E U)) ph ph' phm su d :
  (ph = Closed /\ ph' = Closed)
  \/ (ph <> Closed /\ ph' <> Closed /\ phm <> Closed) ->
  exists q q' qm su' d' o,
    step (flatMap iter fn) (ph, su, d) = ((q, su', d'), o)
    /\ step (flatten (map iter fn)) (ph', (phm, su), d)
       = ((q', (qm, su'), d'), o)
    /\ ((q = Closed /\ q' = Closed)
        \/ (q <> Closed /\ q' <> Closed /\ qm <> Closed)).
Proof.
  intros [[-> ->]|(Hph & Hph' & Hphm)].
  - exists Closed, Closed, phm, su, d, Done. auto.
  - destruct d as [inner|].
    + destruct (step inner (cur inner)) as [si' o] eqn:Hs.
      destruct o as [v| | |e].
      * exists Suspended, Suspended, phm, su, (Some (set_cur inner si')),
          (Yield v).
        repeat split; [open_phase ph; ev|open_phase ph'; ev|].
        right. repeat split; congruence.
      * exists Pulling, Pulling, phm, su, (Some (set_cur inner si')), Tau.
        repeat split; [open_phase ph; ev|open_phase ph'; ev|].
        right. repeat split; congruence.
      * exists Pulling, Pulling, phm, su, None, Tau.
        repeat split; [open_phase ph; ev|open_phase ph'; ev|].
        right. repeat split; congruence.
      * exists Closed, Closed, phm, su, None, (Throw e).
        repeat split; [open_phase ph; ev|open_phase ph'; ev|].
        left. auto.
    + destruct (step iter su) as [su' o] eqn:Hs. destruct o as [v| | |e].
      * destruct (fn v) as [inner|e] eqn:Hv.
        -- exists Pulling, Pulling, Suspended, su', (Some inner), Tau.
           repeat split;
             [open_phase ph; ev|open_phase ph'; open_phase phm; ev|].
           right. repeat split; congruence.
        -- exists Closed, Closed, Closed, su', None, (Throw e).
           repeat split;
             [open_phase ph; ev|open_phase ph'; open_phase phm; ev|].
           left. auto.
      * exists Pulling, Pulling, Pulling, su', None, Tau.
        repeat split;
          [open_phase ph; ev|open_phase ph'; open_phase phm; ev|].
        right. repeat split; congruence.
      * exists Closed, Closed, Closed, su', None, Done.
        repeat split;
          [open_phase ph; ev|open_phase ph'; open_phase phm; ev|].
        left. auto.
      * exists Closed, Closed, Closed, su', None, (Throw e).
        repeat split;
          [open_phase ph; ev|open_phase ph'; open_phase phm; ev|].
        left. auto.
Qed.

Lemma flatMap_flatten_run {T U} (iter : Iterator E T)
  (fn : T -> result E (Iterator E U)) fuel :
  forall ph ph' phm su d,
    (ph = Closed /\ ph' = Closed)
    \/ (ph <> Closed /\ ph' <> Closed /\ phm <> Closed) ->
    (run (flatMap iter fn) fuel (ph, su, d)).1
    = (run (flatten (map iter fn)) fuel (ph', (phm, su), d)).1.
Proof.
  induction fuel as [|fuel IH]; intros ph ph' phm su d HR; [reflexivity|].
  destruct (flatMap_flatten_step iter fn su d HR)
    as (q & q' & qm & su' & d' & o & H1 & H2 & HR').
  cbn [run]. rewrite H1, H2. specialize (IH q q' qm su' d' HR').
  destruct o as [v| | |e]; try reflexivity; [|exact IH].
  destruct (run (flatMap iter fn) fuel (q, su', d')) as [[o1 f1] s1].
  destruct (run (flatten (map iter fn)) fuel (q', (qm, su'), d'))
    as [[o2 f2] s2].
  simpl in IH. inversion IH; subst. reflexivity.
Qed.

Lemma flatMap_flatten_drain {T U} (iter : Iterator E T)
  (fn : T -> result E (Iterator E U)) fuel :
  (drain (flatMap iter fn) fuel).1 = (drain (flatten (map iter fn)) fuel).1.
Proof.
  apply flatMap_flatten_run. right. repeat split; congruence.
Qed.

Lemma flatMap_collects {T U} (f : T -> list U) (l : list T) :
  collects (flatMap (E:=E) (of_list l) (arrays (pure f)))
    (List.concat (List.map f l), Completed).
Proof.
  assert (H : collects_from (flatMap (E:=E) (of_list l) (arrays (pure f)))
                (Fresh, l, None) (flatMap_list (pure f) l))
    by (apply flatMap_from; congruence).
  rewrite flatMap_list_pure in H. exact H.
Qed.

(** C8.  [flatMap(s, fn)] and [flatten(map(s, fn))] give the same
    elements, in the same order, and end the same way: for every source
    (finite or not), every [fn] (that may throw) and every amount of fuel
    the consumer has seen the same from both.  Over the elements [l], with
    [fn] answering arrays, both yield the concatenation, in the order of
    [l], of [fn] applied to each element; an empty array adds nothing. *)
Theorem flatMap_is_flatten_of_map :
  (forall T U (iter : Iterator E T) (fn : T -> result E (Iterator E U)) fuel,
      (drain (flatMap iter fn) fuel).1
      = (drain (flatten (map iter fn)) fuel).1)
  /\ (forall T U (f : T -> list U) (l : list T),
         collects (flatMap (E:=E) (of_list l) (arrays (pure f)))
           (List.concat (List.map f l), Completed)
         /\ collects (flatten (map (E:=E) (of_list l) (arrays (pure f))))
              (List.concat (List.map f l), Completed))
  /\ collects
       (flatMap (E:=E) (of_list [1; 2; 3]%Z)
          (arrays (pure (fun n => if (n =? 2)%Z then [] else [n; n]))))
       ([1; 1; 3; 3]%Z, Completed).
Proof.
  split; [|split].
  - intros. apply flatMap_flatten_drain.
  - intros T U f l. split; [apply flatMap_collects|].
    destruct (flatMap_collects f l) as [sf [n Hn]].
    specialize (Hn O). rewrite Nat.add_0_r in Hn.
    apply collects_of_run with (n:=n).
    pose proof (flatMap_flatten_drain (of_list l) (arrays (pure f)) n) as Hd.
    unfold drain in Hd. rewrite <- Hd. simpl in Hn.
    change (cur (flatMap (of_list l) (arrays (pure f)))) with (Fresh, l, @None (Iterator E U)).
    rewrite Hn. reflexivity.
  - apply (flatMap_collects
             (fun n => if (n =? 2)%Z then [] else [n; n]) [1; 2; 3]%Z).
Qed.

(** ** [filterMap] *)

Lemma present_spec {U} (r : nullable U) :
  present r = false <-> r = Null \/ r = Undefined.
Proof.
  destruct r; simpl; split; intros H; auto; try discriminate;
    destruct H; discriminate.
Qed.

Lemma filterMap_collects {T U} (f : T -> nullable U) (l : list T) :
  collects (filterMap (E:=E) (of_list l) (pure f))
    (List.filter present (List.map f l), Completed).
Proof.
  assert (H : collects_from (filterMap (E:=E) (of_list l) (pure f))
                (Fresh, l) (filterMap_list (pure f) l))
    by (apply filterMap_from; congruence).
  rewrite filterMap_list_pure in H. exact H.
Qed.

Lemma filterMapAsync_collects {T U} timing (f : T -> nullable U)
  (l : list T) :
  collects
    (filterMapAsync (E:=E) (toAsync (of_list l)) (suspending timing (pure f)))
    (List.filter present (List.map f l), Completed).
Proof.
  assert (H : collects_from
                (filterMapAsync (E:=E) (toAsync (of_list l))
                   (suspending timing (pure f)))
                (AFresh, (AFresh, l)) (filterMap_list (pure f) l))
    by (apply filterMapAsync_from; exact I).
  rewrite filterMap_list_pure in H. exact H.
Qed.

(** C9.  [filterMap] and [filterMapAsync] over the elements [l] yield, in
    the order of [l], the results of [fn] that are neither [null] nor
    [undefined], unchanged, and drop exactly those two.  Results that are
    falsy otherwise ([0], the empty string, [false]) are yielded. *)
Theorem filterMap_drops_null_and_undefined :
  (forall T U (f : T -> nullable U) (l : list T),
      collects (filterMap (E:=E) (of_list l) (pure f))
        (List.filter present (List.map f l), Completed)
      /\ (forall timing,
             collects
               (filterMapAsync (E:=E) (toAsync (of_list l))
                  (suspending timing (pure f)))
               (List.filter present (List.map f l), Completed)))
  /\ (forall U (r : nullable U),
         present r = false <-> r = Null \/ r = Undefined)
  /\ (forall U (r : nullable U), loose_eq_null r = negb (present r))
  /\ collects (filterMap (E:=E) (of_list [0; 1; 2; 3; 4]) (pure falsy_results))
       ([Value (PNum 0); Value (PStr ""); Value (PBool false)], Completed)
  /\ (forall timing,
         collects
           (filterMapAsync (E:=E) (toAsync (of_list [0; 1; 2; 3; 4]))
              (suspending timing (pure falsy_results)))
           ([Value (PNum 0); Value (PStr ""); Value (PBool false)], Completed))
  /\ truthy (PNum 0) = false /\ truthy (PStr "") = false
  /\ truthy (PBool false) = false.
Proof.
  split; [|split; [|split; [|split; [|split]]]].
  - intros T U f l. split; [apply filterMap_collects|].
    intros timing. apply filterMapAsync_collects.
  - intros. apply present_spec.
  - intros U r. destruct r; reflexivity.
  - apply (filterMap_collects falsy_results [0; 1; 2; 3; 4]).
  - intros timing.
    apply (filterMapAsync_collects timing falsy_results [0; 1; 2; 3; 4]).
  - repeat split.
Qed.
(** ** Step functions that throw *)

Lemma settles_request_nth {T} (g : Iterator E T) s out fin sf k v :
  settles g s out fin sf ->
  nth_error out k = Some v ->
  exists n, request g n (S k) s = Some (Yield v).
Proof.
  intros [n Hn]. revert s out k Hn.
  induction n as [|n IH]; intros s out k Hn Hk.
  - specialize (Hn O). discriminate.
  - apply run_S_inv in Hn. destruct (step g s) as [s' o] eqn:Hs.
    destruct o as [w| | |e].
    + destruct Hn as [out' [-> Hn]]. destruct k as [|k].
      * simpl in Hk. inversion Hk; subst. exists 1. simpl. rewrite Hs.
        reflexivity.
      * simpl in Hk. destruct (IH _ _ _ Hn Hk) as [m Hm]. exists (S m).
        eapply request_step_yield; [exact Hs|].
        replace (S m) with (m + 1) by lia. apply request_mono, Hm.
    + destruct (IH _ _ _ Hn Hk) as [m Hm]. exists (S m).
      eapply request_step_tau; eauto.
    + destruct Hn as (-> & _). destruct k; discriminate.
    + destruct Hn as (-> & _). destruct k; discriminate.
Qed.

Lemma collects_answer_nth {T} (g : Iterator E T) out fin k v :
  collects g (out, fin) -> nth_error out k = Some v ->
  answers g (S k) (Yield v).
Proof.
  intros [sf Hs] Hk. simpl in Hs.
  destruct (settles_request_nth _ Hs Hk) as [n Hn].
  exists n. apply request_mono, Hn.
Qed.

Lemma collects_answer_throw {T} (g : Iterator E T) out e :
  collects g (out, Failed e) -> answers g (S (length out)) (Throw e).
Proof.
  intros [sf Hs]. simpl in Hs.
  destruct (settles_request Hs) as [n Hn]. exists n. apply request_mono, Hn.
Qed.

Lemma scan_second_answer {T U} (fn : U -> T -> result E U) initial x
  (l : list T) :
  answers (scan (of_list (x :: l)) fn initial) 2
    (match fn initial x with
     | Ok acc => Yield acc
     | Err e => Throw e
     end).
Proof.
  exists 2. intros j. simpl. destruct (fn initial x); reflexivity.
Qed.

Lemma scanAsync_second_answer {T U} timing (fn : U -> T -> result E U)
  initial x (l : list T) :
  answers
    (scanAsync (toAsync (of_list (x :: l))) (suspending2 timing fn) initial) 2
    (match fn initial x with
     | Ok acc => Yield acc
     | Err e => Throw e
     end).
Proof.
  pose proof (scanAsync_from timing fn initial (x :: l)) as H.
  simpl in H. destruct (fn initial x) as [acc|e] eqn:Hx.
  - destruct (scan_list fn acc l) as [out fin].
    apply (collects_answer_nth 1 H). reflexivity.
  - apply (collects_answer_throw H).
Qed.

(** C10.  [scan] and [scanAsync] answer the first request with the
    initial accumulator in one step that reads nothing from the source and
    does not depend on the accumulator function.  The second request is
    the first one to run the function: over a source whose first element
    is [x] it is answered with what [fn(initial, x)] gives, the new
    accumulator or the throw.  So a function that throws on the first
    element is seen on the second request, after [initial] has been
    received. *)
Theorem scan_initial_before_function :
  (forall T U (iter : Iterator E T) (fn : U -> T -> result E U) initial,
      step (scan iter fn initial) (cur (scan iter fn initial))
      = ((Suspended, initial, cur iter), Yield initial)
      /\ answers (scan iter fn initial) 1 (Yield initial))
  /\ (forall T U (iter : Iterator E T)
        (fn : U -> T -> result E (awaitable E U)) initial,
         step (scanAsync iter fn initial) (cur (scanAsync iter fn initial))
         = ((ASuspended, initial, cur iter), Yield initial)
         /\ answers (scanAsync iter fn initial) 1 (Yield initial))
  /\ (forall T U (fn : U -> T -> result E U) initial x (l : list T),
         answers (scan (of_list (x :: l)) fn initial) 2
           (match fn initial x with
            | Ok acc => Yield acc
            | Err e => Throw e
            end))
  /\ (forall T U timing (fn : U -> T -> result E U) initial x (l : list T),
         answers
           (scanAsync (toAsync (of_list (x :: l))) (suspending2 timing fn)
              initial) 2
           (match fn initial x with
            | Ok acc => Yield acc
            | Err e => Throw e
            end)).
Proof.
  split; [|split; [|split]].
  - intros. split; [reflexivity|apply scan_first_answer].
  - intros. split; [reflexivity|apply scanAsync_first_answer].
  - intros. apply scan_second_answer.
  - intros. apply scanAsync_second_answer.
Qed.
Lemma answers_det {T} (g : Iterator E T) k o1 o2 :
  answers g k o1 -> answers g k o2 -> o1 = o2.
Proof.
  intros [n1 H1] [n2 H2]. specialize (H1 n2). specialize (H2 n1).
  rewrite Nat.add_comm in H2. congruence.
Qed.

Lemma map_list_fail {T U} (fn : T -> result E U) (f : T -> U) pre x post e :
  Forall (fun v => fn v = Ok (f v)) pre -> fn x = Err e ->
  map_list fn (pre ++ x :: post) = (List.map f pre, Failed e).
Proof.
  intros Hpre Hx. induction Hpre as [|y pre Hy _ IH]; simpl.
  - rewrite Hx. reflexivity.
  - rewrite Hy, IH. reflexivity.
Qed.

Lemma filter_list_fail {T} (p : T -> result E bool) (q : T -> bool)
  pre x post e :
  Forall (fun v => p v = Ok (q v)) pre -> p x = Err e ->
  filter_list p (pre ++ x :: post) = (List.filter q pre, Failed e).
Proof.
  intros Hpre Hx. induction Hpre as [|y pre Hy _ IH]; simpl.
  - rewrite Hx. reflexivity.
  - rewrite Hy, IH. destruct (q y); reflexivity.
Qed.

Lemma filterMap_list_fail {T U} (fn : T -> result E (nullable U))
  (f : T -> nullable U) pre x post e :
  Forall (fun v => fn v = Ok (f v)) pre -> fn x = Err e ->
  filterMap_list fn (pre ++ x :: post)
  = (List.filter present (List.map f pre), Failed e).
Proof.
  intros Hpre Hx. induction Hpre as [|y pre Hy _ IH]; simpl.
  - rewrite Hx. reflexivity.
  - rewrite Hy, IH. destruct (f y); reflexivity.
Qed.

Lemma takeWhile_list_fail {T} (p : T -> result E bool) pre x post e :
  Forall (fun v => p v = Ok true) pre -> p x = Err e ->
  takeWhile_list p (pre ++ x :: post) = (pre, Failed e).
Proof.
  intros Hpre Hx. induction Hpre as [|y pre Hy _ IH]; simpl.
  - rewrite Hx. reflexivity.
  - rewrite Hy, IH. reflexivity.
Qed.

Lemma flatMap_list_fail {T U} (fn : T -> result E (list U))
  (f : T -> list U) pre x post e :
  Forall (fun v => fn v = Ok (f v)) pre -> fn x = Err e ->
  flatMap_list fn (pre ++ x :: post)
  = (List.concat (List.map f pre), Failed e).
Proof.
  intros Hpre Hx. induction Hpre as [|y pre Hy _ IH]; simpl.
  - rewrite Hx. reflexivity.
  - rewrite Hy, IH. reflexivity.
Qed.

Lemma dedupe_fail_state {T} (getKey : T -> result E string)
  (key : T -> string) l0 x post e :
  getKey x = Err e ->
  forall pre ph seen,
    ph <> Closed ->
    Forall (fun v => getKey v = Ok (key v)) pre ->
    settles (dedupe (of_list l0) getKey) (ph, seen, pre ++ x :: post)
      (dedupe_list (E:=E) (pure key) seen pre).1 (Failed e)
      (Closed, list_to_set (List.map key pre) ∪ seen, post).
Proof.
  intros Hx pre. induction pre as [|y pre IH]; intros ph seen Hph Hpre.
  - simpl. rewrite union_empty_l_L.
    eapply settles_throw. open_phase ph; ev.
  - inversion Hpre as [|? ? Hy Hpre']; subst. simpl.
    destruct (bool_decide (key y ∈ seen)) eqn:Hk.
    + specialize (IH Pulling seen ltac:(congruence) Hpre').
      replace ({[key y]} ∪ list_to_set (List.map key pre) ∪ seen)
        with (list_to_set (List.map key pre) ∪ seen : gset string).
      * eapply settles_tau; [|exact IH]. open_phase ph; ev.
      * apply bool_decide_eq_true in Hk.
        rewrite <- (union_assoc_L {[key y]}),
          (union_comm_L {[key y]}), <- (union_assoc_L _ seen).
        f_equal. symmetry. rewrite union_comm_L.
        apply subseteq_union_1_L, singleton_subseteq_l, Hk.
    + specialize (IH Suspended ({[key y]} ∪ seen) ltac:(congruence) Hpre').
      replace ({[key y]} ∪ list_to_set (List.map key pre) ∪ seen)
        with (list_to_set (List.map key pre) ∪ ({[key y]} ∪ seen)
              : gset string).
      * eapply settles_yield; [|exact IH]. open_phase ph; ev.
      * rewrite (union_comm_L {[key y]} (list_to_set _)).
        rewrite union_assoc_L. reflexivity.
Qed.

(** ** Failures along the accumulators reached *)

Lemma scan_list_fail_along {T U} (fn : U -> T -> result E U)
  (f : U -> T -> U) pre x post e :
  forall acc,
    (forall pre1 v pre2, pre = pre1 ++ v :: pre2 ->
       fn (fold_left f pre1 acc) v = Ok (f (fold_left f pre1 acc) v)) ->
    fn (fold_left f pre acc) x = Err e ->
    scan_list fn acc (pre ++ x :: post) = (running f acc pre, Failed e).
Proof.
  induction pre as [|y pre IH]; intros acc Hpre Hx; simpl in *.
  - rewrite Hx. reflexivity.
  - pose proof (Hpre [] y pre eq_refl) as Hy. simpl in Hy. rewrite Hy.
    rewrite IH; [reflexivity| |exact Hx].
    intros pre1 v pre2 ->. exact (Hpre (y :: pre1) v pre2 eq_refl).
Qed.

Lemma reduce_list_fail_along {T U} (fn : U -> T -> result E U)
  (f : U -> T -> U) pre x post e :
  forall acc,
    (forall pre1 v pre2, pre = pre1 ++ v :: pre2 ->
       fn (fold_left f pre1 acc) v = Ok (f (fold_left f pre1 acc) v)) ->
    fn (fold_left f pre acc) x = Err e ->
    reduce_list fn acc (pre ++ x :: post) = Err e.
Proof.
  induction pre as [|y pre IH]; intros acc Hpre Hx; simpl in *.
  - rewrite Hx. reflexivity.
  - pose proof (Hpre [] y pre eq_refl) as Hy. simpl in Hy. rewrite Hy.
    apply IH; [|exact Hx].
    intros pre1 v pre2 ->. exact (Hpre (y :: pre1) v pre2 eq_refl).
Qed.

(** C3 (as the code has it).  When a step function first throws, with
    [e], on the element [x] that follows the elements [pre] of the source,
    no combinator catches the throw.  The consumer receives, in order,
    exactly what the combinator makes of [pre]; its next request raises
    [e] itself, not wrapped; and the generator is then exhausted: every
    later request is answered [Done].  The failing request is the one
    after the elements already received: request [length pre + 1] for
    [map]; one later for [scan], whose first element is the initial
    accumulator; earlier for [filter], [filterMap] and [dedupe] when they
    dropped elements of [pre].  [reduce] throws [e].  The keys [dedupe]
    recorded for [pre] are still in its set.  For [scan] and [reduce] the
    function is only asked to return on the pairs of accumulator and
    element that the run reaches, so it may throw because of the
    accumulator. *)
Theorem step_failure_propagates :
  (forall T U (fn : T -> result E U) (f : T -> U) pre x post e,
      Forall (fun v => fn v = Ok (f v)) pre -> fn x = Err e ->
      fails_after (map (of_list (pre ++ x :: post)) fn) (List.map f pre) e
      /\ answers (map (of_list (pre ++ x :: post)) fn) (S (length pre))
           (Throw e))
  /\ (forall T (p : T -> result E bool) (q : T -> bool) pre x post e,
         Forall (fun v => p v = Ok (q v)) pre -> p x = Err e ->
         fails_after (filter (of_list (pre ++ x :: post)) p)
           (List.filter q pre) e)
  /\ (forall T U (fn : T -> result E (nullable U)) (f : T -> nullable U)
        pre x post e,
         Forall (fun v => fn v = Ok (f v)) pre -> fn x = Err e ->
         fails_after (filterMap (of_list (pre ++ x :: post)) fn)
           (List.filter present (List.map f pre)) e)
  /\ (forall T U (fn : U -> T -> result E U) (f : U -> T -> U) initial
        pre x post e,
         (forall pre1 v pre2, pre = pre1 ++ v :: pre2 ->
            fn (fold_left f pre1 initial) v
            = Ok (f (fold_left f pre1 initial) v)) ->
         fn (fold_left f pre initial) x = Err e ->
         fails_after (scan (of_list (pre ++ x :: post)) fn initial)
           (initial :: running f initial pre) e
         /\ answers (scan (of_list (pre ++ x :: post)) fn initial)
              (S (S (length pre))) (Throw e))
  /\ (forall T U (fn : U -> T -> result E U) (f : U -> T -> U) initial
        pre x post e,
         (forall pre1 v pre2, pre = pre1 ++ v :: pre2 ->
            fn (fold_left f pre1 initial) v
            = Ok (f (fold_left f pre1 initial) v)) ->
         fn (fold_left f pre initial) x = Err e ->
         returns (reduce (of_list (pre ++ x :: post)) fn initial) (Err e))
  /\ (forall T U (fn : T -> result E (list U)) (f : T -> list U)
        pre x post e,
         Forall (fun v => fn v = Ok (f v)) pre -> fn x = Err e ->
         fails_after (flatMap (of_list (pre ++ x :: post)) (arrays fn))
           (List.concat (List.map f pre)) e)
  /\ (forall T (p : T -> result E bool) pre x post e,
         Forall (fun v => p v = Ok true) pre -> p x = Err e ->
         fails_after (takeWhile (of_list (pre ++ x :: post)) p) pre e)
  /\ (forall T (getKey : T -> result E string) (key : T -> string)
        pre x post e,
         Forall (fun v => getKey v = Ok (key v)) pre -> getKey x = Err e ->
         fails_after (dedupe (of_list (pre ++ x :: post)) getKey)
           (first_occurrences key [] pre) e
         /\ settles (dedupe (of_list (pre ++ x :: post)) getKey)
              (cur (dedupe (of_list (pre ++ x :: post)) getKey))
              (first_occurrences key [] pre) (Failed e)
              (Closed, list_to_set (List.map key pre), post)).
Proof.
  split; [|split; [|split; [|split; [|split; [|split; [|split]]]]]].
  - intros T U fn f pre x post e Hpre Hx.
    assert (Hf : fails_after (map (of_list (pre ++ x :: post)) fn)
                   (List.map f pre) e).
    { apply collects_fails_after; [apply map_closes|].
      rewrite <- (@map_list_fail T U fn f pre x post e Hpre Hx).
      apply map_from. congruence. }
    split; [exact Hf|]. destruct Hf as [_ Ha].
    rewrite length_map in Ha. exact Ha.
  - intros T p q pre x post e Hpre Hx.
    apply collects_fails_after; [apply filter_closes|].
    rewrite <- (@filter_list_fail T p q pre x post e Hpre Hx).
    apply filter_from. congruence.
  - intros T U fn f pre x post e Hpre Hx.
    apply collects_fails_after; [apply filterMap_closes|].
    rewrite <- (@filterMap_list_fail T U fn f pre x post e Hpre Hx).
    apply filterMap_from. congruence.
  - intros T U fn f initial pre x post e Hpre Hx.
    assert (Hf : fails_after (scan (of_list (pre ++ x :: post)) fn initial)
                   (initial :: running f initial pre) e).
    { apply collects_fails_after; [apply scan_closes|].
      pose proof (scan_from fn initial (pre ++ x :: post)) as H.
      rewrite (@scan_list_fail_along T U fn f pre x post e initial Hpre Hx)
        in H.
      exact H. }
    split; [exact Hf|]. destruct Hf as [_ Ha].
    simpl in Ha. rewrite running_length in Ha. exact Ha.
  - intros T U fn f initial pre x post e Hpre Hx.
    unfold returns, reduce.
    rewrite <- (@reduce_list_fail_along T U fn f pre x post e initial Hpre
                  Hx).
    apply reduce_from_list.
  - intros T U fn f pre x post e Hpre Hx.
    apply collects_fails_after; [apply flatMap_closes|].
    rewrite <- (@flatMap_list_fail T U fn f pre x post e Hpre Hx).
    apply flatMap_from. congruence.
  - intros T p pre x post e Hpre Hx.
    apply collects_fails_after; [apply takeWhile_closes|].
    rewrite <- (@takeWhile_list_fail T p pre x post e Hpre Hx).
    apply takeWhile_from. congruence.
  - intros T getKey key pre x post e Hpre Hx.
    pose proof (@dedupe_fail_state T getKey key (pre ++ x :: post) x post e
                  Hx pre Fresh ∅ ltac:(congruence) Hpre) as Hs.
    pose proof (dedupe_list_pure key [] pre) as Hl. simpl in Hl.
    rewrite Hl, union_empty_r_L in Hs. simpl in Hs.
    split; [|exact Hs]. split.
    + eexists. split; [exact Hs|reflexivity].
    + destruct (settles_request Hs) as [n Hn]. exists n.
      apply request_mono, Hn.
Qed.

(** The suspending family closes and propagates in the same way. *)

Lemma mapAsync_closes {T U} (iter : Iterator E T)
  (fn : T -> result E (awaitable E U)) :
  closes (mapAsync iter fn).
Proof. closes_tac. Qed.

Lemma filterAsync_closes {T} (iter : Iterator E T)
  (p : T -> result E (awaitable E bool)) :
  closes (filterAsync iter p).
Proof. closes_tac. Qed.

Lemma filterMapAsync_closes {T U} (iter : Iterator E T)
  (fn : T -> result E (awaitable E (nullable U))) :
  closes (filterMapAsync iter fn).
Proof. closes_tac. Qed.

Lemma takeWhileAsync_closes {T} (iter : Iterator E T)
  (p : T -> result E (awaitable E bool)) :
  closes (takeWhileAsync iter p).
Proof. closes_tac. Qed.

Lemma dedupeAsync_closes {T} (iter : Iterator E T)
  (k : T -> result E string) :
  closes (dedupeAsync iter k).
Proof. closes_tac. Qed.

Lemma flatMapAsync_closes {T U} (as_promise : U -> option (nat * result E U))
  (iter : Iterator E T) (fn : T -> result E (Iterator E U)) :
  closes (flatMapAsync as_promise iter fn).
Proof. closes_tac. Qed.

Lemma suspending_failure_propagates :
  (forall T U timing (fn : T -> result E U) (f : T -> U) pre x post e,
      Forall (fun v => fn v = Ok (f v)) pre -> fn x = Err e ->
      fails_after
        (mapAsync (toAsync (of_list (pre ++ x :: post))) (suspending timing fn))
        (List.map f pre) e)
  /\ (forall T timing (p : T -> result E bool) (q : T -> bool) pre x post e,
         Forall (fun v => p v = Ok (q v)) pre -> p x = Err e ->
         fails_after
           (filterAsync (toAsync (of_list (pre ++ x :: post)))
              (suspending timing p))
           (List.filter q pre) e)
  /\ (forall T U timing (fn : T -> result E (nullable U))
        (f : T -> nullable U) pre x post e,
         Forall (fun v => fn v = Ok (f v)) pre -> fn x = Err e ->
         fails_after
           (filterMapAsync (toAsync (of_list (pre ++ x :: post)))
              (suspending timing fn))
           (List.filter present (List.map f pre)) e)
  /\ (forall T U timing (fn : U -> T -> result E U) (f : U -> T -> U) initial
        pre x post e,
         (forall pre1 v pre2, pre = pre1 ++ v :: pre2 ->
            fn (fold_left f pre1 initial) v
            = Ok (f (fold_left f pre1 initial) v)) ->
         fn (fold_left f pre initial) x = Err e ->
         fails_after
           (scanAsync (toAsync (of_list (pre ++ x :: post)))
              (suspending2 timing fn) initial)
           (initial :: running f initial pre) e)
  /\ (forall T U timing (fn : U -> T -> result E U) (f : U -> T -> U) initial
        pre x post e,
         (forall pre1 v pre2, pre = pre1 ++ v :: pre2 ->
            fn (fold_left f pre1 initial) v
            = Ok (f (fold_left f pre1 initial) v)) ->
         fn (fold_left f pre initial) x = Err e ->
         returns
           (reduceAsync (toAsync (of_list (pre ++ x :: post)))
              (suspending2 timing fn) initial)
           (Err e))
  /\ (forall T timing (p : T -> result E bool) pre x post e,
         Forall (fun v => p v = Ok true) pre -> p x = Err e ->
         fails_after
           (takeWhileAsync (toAsync (of_list (pre ++ x :: post)))
              (suspending timing p))
           pre e)
  /\ (forall T (getKey : T -> result E string) (key : T -> string)
        pre x post e,
         Forall (fun v => getKey v = Ok (key v)) pre -> getKey x = Err e ->
         fails_after
           (dedupeAsync (toAsync (of_list (pre ++ x :: post))) getKey)
           (first_occurrences key [] pre) e).
Proof.
  split; [|split; [|split; [|split; [|split; [|split]]]]].
  - intros T U timing fn f pre x post e Hpre Hx.
    apply collects_fails_after; [apply mapAsync_closes|].
    rewrite <- (@map_list_fail T U fn f pre x post e Hpre Hx).
    apply mapAsync_from; exact I.
  - intros T timing p q pre x post e Hpre Hx.
    apply collects_fails_after; [apply filterAsync_closes|].
    rewrite <- (@filter_list_fail T p q pre x post e Hpre Hx).
    apply filterAsync_from; exact I.
  - intros T U timing fn f pre x post e Hpre Hx.
    apply collects_fails_after; [apply filterMapAsync_closes|].
    rewrite <- (@filterMap_list_fail T U fn f pre x post e Hpre Hx).
    apply filterMapAsync_from; exact I.
  - intros T U timing fn f initial pre x post e Hpre Hx.
    apply collects_fails_after; [apply scanAsync_closes|].
    pose proof (scanAsync_from timing fn initial (pre ++ x :: post)) as H.
    rewrite (@scan_list_fail_along T U fn f pre x post e initial Hpre Hx)
      in H.
    exact H.
  - intros T U timing fn f initial pre x post e Hpre Hx.
    unfold returns, reduceAsync.
    rewrite <- (@reduce_list_fail_along T U fn f pre x post e initial Hpre
                  Hx).
    apply reduceAsync_from_list; exact I.
  - intros T timing p pre x post e Hpre Hx.
    apply collects_fails_after; [apply takeWhileAsync_closes|].
    rewrite <- (@takeWhile_list_fail T p pre x post e Hpre Hx).
    apply takeWhileAsync_from; exact I.
  - intros T getKey key pre x post e Hpre Hx.
    apply collects_fails_after; [apply dedupeAsync_closes|].
    assert (Hl : dedupe_list getKey ∅ (pre ++ x :: post)
                 = (first_occurrences key [] pre, Failed e)).
    { pose proof (@dedupe_fail_state T getKey key (pre ++ x :: post) x post e
                    Hx pre Fresh ∅ ltac:(congruence) Hpre) as Hs.
      pose proof (dedupe_list_pure key [] pre) as Hp. simpl in Hp.
      rewrite Hp in Hs. simpl in Hs.
      assert (Hc : collects_from (dedupe (of_list (pre ++ x :: post)) getKey)
                     (Fresh, ∅, pre ++ x :: post)
                     (dedupe_list getKey ∅ (pre ++ x :: post)))
        by (apply dedupe_from; congruence).
      apply (collects_det Hc). eexists. exact Hs. }
    rewrite <- Hl. apply dedupeAsync_from; exact I.
Qed.
(** ** Laziness of a chain *)

Lemma chain_step {T U} (src : nat -> T) (p : T -> bool) (f : T -> U)
  phm phf pht count c s1 o :
  step (chain (E:=E) src p f) (phm, (phf, (pht, count, (c, c)))) = (s1, o) ->
  match o with
  | Yield v =>
      exists count',
        s1 = (Suspended, (Suspended, (Suspended, count', (S c, S c))))
        /\ v = f (src c) /\ p (src c) = true
  | Tau =>
      exists count',
        s1 = (Pulling, (Pulling, (Suspended, count', (S c, S c))))
        /\ p (src c) = false
  | _ => True
  end.
Proof.
  unfold chain, pure. intros H.
  destruct phm, phf, pht; simpl in H;
    repeat match type of H with
           | context [(?a <=? ?b)%Z] => destruct (a <=? b)%Z; simpl in H
           | context [p ?x] => destruct (p x) eqn:?; simpl in H
           end;
    inversion H; subst; try exact I; eauto.
Qed.

(** One request to [map(filter(take(source, 1_000_000), p), f)], made
    when the source has answered [c] calls: if it is answered with an
    element, the source has then answered [c' + 1] calls, where element
    [c'] is the first one from [c] on that [p] accepts, and the answer is
    [f] of it.  Every call of [next()] on the source was needed; none is
    made ahead of the request. *)
Lemma chain_pulls_what_it_needs {T U} (src : nat -> T) (p : T -> bool)
  (f : T -> U) fuel :
  forall phm phf pht count c s' v,
    next (chain (E:=E) src p f) fuel (phm, (phf, (pht, count, (c, c))))
    = Some (s', Yield v) ->
    exists c' count',
      c <= c'
      /\ s' = (Suspended, (Suspended, (Suspended, count', (S c', S c'))))
      /\ v = f (src c') /\ p (src c') = true
      /\ (forall i, c <= i < c' -> p (src i) = false).
Proof.
  induction fuel as [|fuel IH]; intros phm phf pht count c s' v H;
    [discriminate|].
  cbn [next] in H.
  destruct (step (chain src p f) (phm, (phf, (pht, count, (c, c)))))
    as [s1 o] eqn:Hs.
  apply chain_step in Hs. destruct o as [w| | |e]; try discriminate.
  - destruct Hs as (count' & -> & -> & Hp). inversion H; subst.
    exists c, count'. repeat split; auto. intros i Hi. lia.
  - destruct Hs as (count' & -> & Hp).
    destruct (IH _ _ _ _ _ _ _ H) as (c' & count'' & Hle & -> & -> & Hp' & Hrej).
    exists c', count''. repeat split; auto; [lia|].
    intros i Hi. destruct (Nat.eq_dec i c) as [->|Hne]; [exact Hp|].
    apply Hrej. lia.
Qed.
(** ** Combinators over any source that settles *)

Lemma then_end_emit {T} (v : T) (r : list T * ending E) fin :
  then_end (emit v r) fin = emit v (then_end r fin).
Proof. reflexivity. Qed.

Lemma map_over {T U} (iter : Iterator E T) (fn : T -> result E U)
  su ph out fin :
  ph <> Closed ->
  collects_from iter su (out, fin) ->
  collects_from (map iter fn) (ph, su) (then_end (map_list fn out) fin).
Proof.
  intros Hph [sf [n Hn]]. simpl in Hn.
  revert su ph out Hph Hn. induction n as [|n IH]; intros su ph out Hph Hn.
  - specialize (Hn O). discriminate.
  - apply run_S_inv in Hn. destruct (step iter su) as [su' o] eqn:Hs.
    destruct o as [v| | |e].
    + destruct Hn as [out' [-> Hn]]. simpl map_list.
      destruct (fn v) as [r|e] eqn:Hv.
      * rewrite then_end_emit.
        eapply collects_yield; [|apply (IH su' Suspended); [congruence|exact Hn]].
        open_phase ph; ev.
      * open_phase ph; throw.
    + eapply collects_tau; [|apply (IH su' Pulling); [congruence|exact Hn]].
      open_phase ph; ev.
    + destruct Hn as (-> & -> & _). open_phase ph; finished.
    + destruct Hn as (-> & -> & _). open_phase ph; throw.
Qed.

Lemma filter_over {T} (iter : Iterator E T) (p : T -> result E bool)
  su ph out fin :
  ph <> Closed ->
  collects_from iter su (out, fin) ->
  collects_from (filter iter p) (ph, su) (then_end (filter_list p out) fin).
Proof.
  intros Hph [sf [n Hn]]. simpl in Hn.
  revert su ph out Hph Hn. induction n as [|n IH]; intros su ph out Hph Hn.
  - specialize (Hn O). discriminate.
  - apply run_S_inv in Hn. destruct (step iter su) as [su' o] eqn:Hs.
    destruct o as [v| | |e].
    + destruct Hn as [out' [-> Hn]]. simpl filter_list.
      destruct (p v) as [[|]|e] eqn:Hv.
      * rewrite then_end_emit.
        eapply collects_yield; [|apply (IH su' Suspended); [congruence|exact Hn]].
        open_phase ph; ev.
      * eapply collects_tau; [|apply (IH su' Pulling); [congruence|exact Hn]].
        open_phase ph; ev.
      * open_phase ph; throw.
    + eapply collects_tau; [|apply (IH su' Pulling); [congruence|exact Hn]].
      open_phase ph; ev.
    + destruct Hn as (-> & -> & _). open_phase ph; finished.
    + destruct Hn as (-> & -> & _). open_phase ph; throw.
Qed.

Lemma filterMap_over {T U} (iter : Iterator E T)
  (fn : T -> result E (nullable U)) su ph out fin :
  ph <> Closed ->
  collects_from iter su (out, fin) ->
  collects_from (filterMap iter fn) (ph, su)
    (then_end (filterMap_list fn out) fin).
Proof.
  intros Hph [sf [n Hn]]. simpl in Hn.
  revert su ph out Hph Hn. induction n as [|n IH]; intros su ph out Hph Hn.
  - specialize (Hn O). discriminate.
  - apply run_S_inv in Hn. destruct (step iter su) as [su' o] eqn:Hs.
    destruct o as [v| | |e].
    + destruct Hn as [out' [-> Hn]]. simpl filterMap_list.
      destruct (fn v) as [r|e] eqn:Hv.
      * destruct (loose_eq_null r) eqn:Hr.
        -- eapply collects_tau;
             [|apply (IH su' Pulling); [congruence|exact Hn]].
           open_phase ph; ev.
        -- rewrite then_end_emit.
           eapply collects_yield;
             [|apply (IH su' Suspended); [congruence|exact Hn]].
           open_phase ph; ev.
      * open_phase ph; throw.
    + eapply collects_tau; [|apply (IH su' Pulling); [congruence|exact Hn]].
      open_phase ph; ev.
    + destruct Hn as (-> & -> & _). open_phase ph; finished.
    + destruct Hn as (-> & -> & _). open_phase ph; throw.
Qed.

Lemma scan_loop_over {T U} (iter : Iterator E T) (fn : U -> T -> result E U)
  initial su ph acc out fin :
  ph = Pulling \/ ph = Suspended ->
  collects_from iter su (out, fin) ->
  collects_from (scan iter fn initial) (ph, acc, su)
    (then_end (scan_list fn acc out) fin).
Proof.
  intros Hph [sf [n Hn]]. simpl in Hn.
  revert su ph acc out Hph Hn.
  induction n as [|n IH]; intros su ph acc out Hph Hn.
  - specialize (Hn O). discriminate.
  - apply run_S_inv in Hn. destruct (step iter su) as [su' o] eqn:Hs.
    destruct o as [v| | |e].
    + destruct Hn as [out' [-> Hn]]. simpl scan_list.
      destruct (fn acc v) as [r|e] eqn:Hv.
      * rewrite then_end_emit.
        eapply collects_yield; [|apply (IH su' Suspended); [auto|exact Hn]].
        destruct Hph; subst; ev.
      * destruct Hph; subst; throw.
    + eapply collects_tau; [|apply (IH su' Pulling); [auto|exact Hn]].
      destruct Hph; subst; ev.
    + destruct Hn as (-> & -> & _). destruct Hph; subst; finished.
    + destruct Hn as (-> & -> & _). destruct Hph; subst; throw.
Qed.

Lemma scan_over {T U} (iter : Iterator E T) (fn : U -> T -> result E U)
  initial out fin :
  collects iter (out, fin) ->
  collects (scan iter fn initial)
    (emit initial (then_end (scan_list fn initial out) fin)).
Proof.
  intros H. unfold collects. eapply collects_yield; [reflexivity|].
  apply scan_loop_over; auto.
Qed.

Lemma dedupe_over {T} (iter : Iterator E T) (getKey : T -> result E string)
  su ph seen out fin :
  ph <> Closed ->
  collects_from iter su (out, fin) ->
  collects_from (dedupe iter getKey) (ph, seen, su)
    (then_end (dedupe_list getKey seen out) fin).
Proof.
  intros Hph [sf [n Hn]]. simpl in Hn.
  revert su ph seen out Hph Hn.
  induction n as [|n IH]; intros su ph seen out Hph Hn.
  - specialize (Hn O). discriminate.
  - apply run_S_inv in Hn. destruct (step iter su) as [su' o] eqn:Hs.
    destruct o as [v| | |e].
    + destruct Hn as [out' [-> Hn]]. simpl dedupe_list.
      destruct (getKey v) as [key|e] eqn:Hv.
      * destruct (bool_decide (key ∈ seen)) eqn:Hk.
        -- eapply collects_tau;
             [|apply (IH su' Pulling); [congruence|exact Hn]].
           open_phase ph; ev.
        -- rewrite then_end_emit.
           eapply collects_yield;
             [|apply (IH su' Suspended); [congruence|exact Hn]].
           open_phase ph; ev.
      * open_phase ph; throw.
    + eapply collects_tau; [|apply (IH su' Pulling); [congruence|exact Hn]].
      open_phase ph; ev.
    + destruct Hn as (-> & -> & _). open_phase ph; finished.
    + destruct Hn as (-> & -> & _). open_phase ph; throw.
Qed.

Lemma takeWhile_over {T} (iter : Iterator E T) (p : T -> result E bool)
  su ph out fin :
  ph <> Closed ->
  collects_from iter su (out, fin) ->
  collects_from (takeWhile iter p) (ph, su) (takeWhile_end p out fin).
Proof.
  intros Hph [sf [n Hn]]. simpl in Hn.
  revert su ph out Hph Hn. induction n as [|n IH]; intros su ph out Hph Hn.
  - specialize (Hn O). discriminate.
  - apply run_S_inv in Hn. destruct (step iter su) as [su' o] eqn:Hs.
    destruct o as [v| | |e].
    + destruct Hn as [out' [-> Hn]]. simpl takeWhile_end.
      destruct (p v) as [[|]|e] eqn:Hv.
      * eapply collects_yield; [|apply (IH su' Suspended); [congruence|exact Hn]].
        open_phase ph; ev.
      * open_phase ph; finished.
      * open_phase ph; throw.
    + eapply collects_tau; [|apply (IH su' Pulling); [congruence|exact Hn]].
      open_phase ph; ev.
    + destruct Hn as (-> & -> & _). open_phase ph; finished.
    + destruct Hn as (-> & -> & _). open_phase ph; throw.
Qed.

Lemma take_over {T} (iter : Iterator E T) (n : Z) su ph count out fin :
  ph <> Closed ->
  collects_from iter su (out, fin) ->
  collects_from (take iter n) (ph, count, su)
    (take_end n (match ph with Suspended => count + 1 | _ => count end)%Z
       out fin).
Proof.
  intros Hph [sf [m Hm]]. simpl in Hm.
  revert su ph count out Hph Hm.
  induction m as [|m IH]; intros su ph count out Hph Hm.
  - specialize (Hm O). discriminate.
  - apply run_S_inv in Hm. destruct (step iter su) as [su' o] eqn:Hs.
    set (c := (match ph with Suspended => count + 1 | _ => count end)%Z).
    destruct o as [v| | |e].
    + destruct Hm as [out' [-> Hm]]. simpl take_end.
      destruct (n <=? c)%Z eqn:Hc.
      * subst c. open_phase ph; finished.
      * eapply collects_yield;
          [|apply (IH su' Suspended c); [congruence|exact Hm]].
        subst c. open_phase ph; ev.
    + eapply collects_tau with (s':=(Pulling, c, su'));
        [subst c; open_phase ph; ev|].
      apply (IH su' Pulling c); [congruence|exact Hm].
    + destruct Hm as (-> & -> & _). subst c. open_phase ph; finished.
    + destruct Hm as (-> & -> & _). subst c. open_phase ph; throw.
Qed.

Lemma flatMap_over {T U} (iter : Iterator E T) (fn : T -> result E (list U))
  su ph out fin :
  ph <> Closed ->
  collects_from iter su (out, fin) ->
  collects_from (flatMap iter (arrays fn)) (ph, su, None)
    (then_end (flatMap_list fn out) fin).
Proof.
  intros Hph [sf [n Hn]]. simpl in Hn.
  revert su ph out Hph Hn. induction n as [|n IH]; intros su ph out Hph Hn.
  - specialize (Hn O). discriminate.
  - apply run_S_inv in Hn. destruct (step iter su) as [su' o] eqn:Hs.
    destruct o as [v| | |e].
    + destruct Hn as [out' [-> Hn]]. simpl flatMap_list.
      destruct (fn v) as [inner|e] eqn:Hv.
      * eapply collects_tau
          with (s':=(Pulling, su', Some (set_cur (of_list inner) inner)));
          [open_phase ph; ev|].
        specialize (IH su' Pulling out' ltac:(congruence) Hn).
        pose proof (flatMap_delegate (ri:=(inner, Completed)) (ph:=Pulling)
                      ltac:(congruence) (of_list_from inner inner) IH) as Hd.
        exact Hd.
      * open_phase ph; throw.
    + eapply collects_tau;
        [|apply (IH su' Pulling); [congruence|exact Hn]].
      open_phase ph; ev.
    + destruct Hn as (-> & -> & _). open_phase ph; finished.
    + destruct Hn as (-> & -> & _). open_phase ph; throw.
Qed.

Lemma reduce_over {T U} (iter : Iterator E T) (fn : U -> T -> result E U)
  su acc out fin :
  collects_from iter su (out, fin) ->
  exists n0, forall k,
    reduce_from iter fn (n0 + k) acc su
    = Some (match reduce_list fn acc out with
            | Ok a => match fin with
                      | Completed => Ok a
                      | Failed e => Err e
                      end
            | Err e => Err e
            end).
Proof.
  intros [sf [n Hn]]. simpl in Hn.
  revert su acc out Hn. induction n as [|n IH]; intros su acc out Hn.
  - specialize (Hn O). discriminate.
  - apply run_S_inv in Hn. destruct (step iter su) as [su' o] eqn:Hs.
    destruct o as [v| | |e].
    + destruct Hn as [out' [-> Hn]]. simpl reduce_list.
      destruct (fn acc v) as [a|e] eqn:Hv.
      * destruct (IH su' a out' Hn) as [n0 H]. exists (S n0). intros k.
        simpl. rewrite Hs, Hv. apply H.
      * exists 1. intros k. simpl. rewrite Hs, Hv. reflexivity.
    + destruct (IH su' acc out Hn) as [n0 H]. exists (S n0). intros k.
      simpl. rewrite Hs. apply H.
    + destruct Hn as (-> & -> & _). exists 1. intros k. simpl.
      rewrite Hs. reflexivity.
    + destruct Hn as (-> & -> & _). exists 1. intros k. simpl.
      rewrite Hs. reflexivity.
Qed.

Lemma take_end_firstn {T} (n count : Z) (out : list T) (fin : ending E) :
  take_end n count out fin
  = if Z.to_nat (n - count) <? length out
    then (firstn (Z.to_nat (n - count)) out, Completed)
    else (out, fin).
Proof.
  revert count. induction out as [|x out IH]; intros count; simpl.
  - destruct (Z.to_nat (n - count)); reflexivity.
  - destruct (Z.leb_spec n count).
    + replace (Z.to_nat (n - count)) with O by lia. reflexivity.
    + rewrite IH.
      replace (Z.to_nat (n - count)) with (S (Z.to_nat (n - (count + 1))))
        by lia.
      simpl length. simpl firstn.
      destruct (Nat.ltb_spec (Z.to_nat (n - (count + 1))) (length out));
        destruct (Nat.ltb_spec (S (Z.to_nat (n - (count + 1))))
                    (S (length out)));
        try lia; reflexivity.
Qed.

Lemma takeWhile_end_pure {T} (p : T -> bool) (out : list T) (fin : ending E) :
  takeWhile_end (pure p) out fin
  = (longest_prefix p out, if forallb p out then fin else Completed).
Proof.
  unfold pure. induction out as [|x out IH]; simpl; [reflexivity|].
  destruct (p x); [rewrite IH|]; reflexivity.
Qed.

Lemma running_last {T U} (f : U -> T -> U) acc (l : list T) d :
  List.last (acc :: running f acc l) d = fold_left f l acc.
Proof.
  revert acc. induction l as [|x l IH]; intros acc; [reflexivity|].
  change (List.last (acc :: running f acc (x :: l)) d)
    with (List.last (f acc x :: running f (f acc x) l) d).
  apply IH.
Qed.

Lemma first_occurrences_id {T} (key : T -> string) (before m : list T) :
  NoDup (List.map key m) ->
  (forall x, x ∈ m -> key x ∉ List.map key before) ->
  first_occurrences key before m = m.
Proof.
  revert before. induction m as [|y m IH]; intros before Hnd Hfresh;
    [reflexivity|].
  simpl. simpl in Hnd. apply NoDup_cons in Hnd as [Hy Hnd].
  rewrite bool_decide_eq_false_2 by (apply Hfresh; left).
  f_equal. apply IH; [exact Hnd|].
  intros x Hx Hin. rewrite List.map_app in Hin.
  apply elem_of_app in Hin as [Hin|Hin].
  - apply (Hfresh x); [right; exact Hx|exact Hin].
  - simpl in Hin. apply list_elem_of_singleton in Hin.
    apply Hy. rewrite <- Hin.
    apply list_elem_of_In, in_map, list_elem_of_In, Hx.
Qed.

(** X1.  [map] over any source that settles: when the source gives the
    elements [out] and then ends (is done, or throws [e]), [map(s, f)]
    gives [f] of each element of [out], as many and in the same order, and
    ends in the same way; a throw of the source comes out unchanged. *)
Theorem map_over_any_source :
  forall T U (iter : Iterator E T) (f : T -> U) out fin,
    collects iter (out, fin) ->
    collects (map iter (pure f)) (List.map f out, fin)
    /\ length (List.map f out) = length out.
Proof.
  intros T U iter f out fin H. split; [|apply length_map].
  assert (Hm : collects_from (map iter (pure f)) (Fresh, cur iter)
                 (then_end (map_list (pure f) out) fin))
    by (apply map_over; [congruence|exact H]).
  rewrite map_list_pure in Hm. exact Hm.
Qed.

(** X2.  [filter] over any source that settles: it gives the elements of
    [out] that the predicate accepts, in the order of [out], and ends as
    the source ends. *)
Theorem filter_over_any_source :
  forall T (iter : Iterator E T) (p : T -> bool) out fin,
    collects iter (out, fin) ->
    collects (filter iter (pure p)) (List.filter p out, fin).
Proof.
  intros T iter p out fin H.
  assert (Hm : collects_from (filter iter (pure p)) (Fresh, cur iter)
                 (then_end (filter_list (pure p) out) fin))
    by (apply filter_over; [congruence|exact H]).
  rewrite filter_list_pure in Hm. exact Hm.
Qed.

(** X3.  [reduce] over any source that settles: when the source is done
    after the elements [out], [reduce(s, f, i)] returns the left fold of
    [f] over [out] from [i] (so [i] itself for an empty source); when the
    source throws, [reduce] throws the same error. *)
Theorem reduce_over_any_source :
  forall T U (iter : Iterator E T) (f : U -> T -> U) (i : U) out fin,
    collects iter (out, fin) ->
    returns (reduce iter (pure2 f) i)
      (match fin with
       | Completed => Ok (fold_left f out i)
       | Failed e => Err e
       end).
Proof.
  intros T U iter f i out fin H.
  destruct (reduce_over (pure2 f) i H) as [n0 Hn].
  rewrite reduce_list_pure in Hn. exists n0. exact Hn.
Qed.

(** X4.  [scan] over any source that settles: it gives [i], then the
    accumulator after each element of [out], and ends as the source ends.
    The last accumulator it yields is the value [reduce] returns on the
    same elements. *)
Theorem scan_over_any_source :
  forall T U (iter : Iterator E T) (f : U -> T -> U) (i : U) out fin,
    collects iter (out, fin) ->
    collects (scan iter (pure2 f) i) (i :: running f i out, fin)
    /\ List.last (i :: running f i out) i = fold_left f out i.
Proof.
  intros T U iter f i out fin H. split; [|apply running_last].
  pose proof (scan_over (pure2 f) i H) as Hs.
  rewrite scan_list_pure in Hs. exact Hs.
Qed.

(** X5.  [filterMap] over any source that settles: it gives the results
    of [fn] on [out] that are neither [null] nor [undefined], in order,
    and ends as the source ends. *)
Theorem filterMap_over_any_source :
  forall T U (iter : Iterator E T) (f : T -> nullable U) out fin,
    collects iter (out, fin) ->
    collects (filterMap iter (pure f))
      (List.filter present (List.map f out), fin).
Proof.
  intros T U iter f out fin H.
  assert (Hm : collects_from (filterMap iter (pure f)) (Fresh, cur iter)
                 (then_end (filterMap_list (pure f) out) fin))
    by (apply filterMap_over; [congruence|exact H]).
  rewrite filterMap_list_pure in Hm. exact Hm.
Qed.

(** X6.  [dedupe] over any source that settles: it gives the first
    occurrence of each key among [out], in order, and ends as the source
    ends. *)
Theorem dedupe_over_any_source :
  forall T (iter : Iterator E T) (key : T -> string) out fin,
    collects iter (out, fin) ->
    collects (dedupe iter (pure key)) (first_occurrences key [] out, fin).
Proof.
  intros T iter key out fin H.
  assert (Hm : collects_from (dedupe iter (pure key)) (Fresh, ∅, cur iter)
                 (then_end (dedupe_list (pure key) ∅ out) fin))
    by (apply dedupe_over; [congruence|exact H]).
  assert (Hl : dedupe_list (E:=E) (pure key) ∅ out
               = (first_occurrences key [] out, Completed))
    by (apply (dedupe_list_pure (T:=T)) with (before:=[])).
  rewrite Hl in Hm. exact Hm.
Qed.

(** X9.  [flatMap] over any source that settles, with [fn] answering
    arrays: it gives the concatenation of [fn] on each element of [out],
    in order, and ends as the source ends. *)
Theorem flatMap_over_any_source :
  forall T U (iter : Iterator E T) (f : T -> list U) out fin,
    collects iter (out, fin) ->
    collects (flatMap iter (arrays (pure f)))
      (List.concat (List.map f out), fin).
Proof.
  intros T U iter f out fin H.
  assert (Hm : collects_from (flatMap iter (arrays (pure f)))
                 (Fresh, cur iter, None)
                 (then_end (flatMap_list (pure f) out) fin))
    by (apply flatMap_over; [congruence|exact H]).
  rewrite flatMap_list_pure in Hm. exact Hm.
Qed.

Lemma flatten_delegate_start {T} (iter : Iterator E (Iterator E T)) su
  (inner : Iterator E T) ph ri r :
  ph <> Closed ->
  collects inner ri ->
  collects_from (flatten iter) (Pulling, su, None) r ->
  collects_from (flatten iter) (ph, su, Some inner) (delegated ri r).
Proof.
  intros Hph [sf [n Hn]] Hr. destruct ri as [out fin]. simpl in Hn.
  destruct n as [|n]; [specialize (Hn O); discriminate|].
  apply run_S_inv in Hn.
  destruct (step inner (cur inner)) as [s' o] eqn:Hs.
  destruct o as [v| | |e].
  - destruct Hn as [out' [-> Hn]].
    assert (Hd : collects_from (flatten iter)
                   (Suspended, su, Some (set_cur inner s'))
                   (delegated (out', fin) r)).
    { apply flatten_delegate; [congruence| |exact Hr].
      exists sf, n. exact Hn. }
    replace (delegated (v :: out', fin) r)
      with (emit v (delegated (out', fin) r))
      by (unfold delegated, emit; simpl; destruct fin; reflexivity).
    eapply collects_yield; [|exact Hd]. open_phase ph; ev.
  - assert (Hd : collects_from (flatten iter)
                   (Pulling, su, Some (set_cur inner s'))
                   (delegated (out, fin) r)).
    { apply flatten_delegate; [congruence| |exact Hr].
      exists sf, n. exact Hn. }
    eapply collects_tau; [|exact Hd]. open_phase ph; ev.
  - destruct Hn as (-> & -> & _). unfold delegated. simpl. destruct r.
    eapply collects_tau; [|exact Hr]. open_phase ph; ev.
  - destruct Hn as (-> & -> & _). unfold delegated. simpl.
    open_phase ph; throw.
Qed.

Lemma flatten_over {T} (iter : Iterator E (Iterator E T)) su ph
  (ll : list (list T)) fin :
  ph <> Closed ->
  collects_from iter su (List.map of_list ll, fin) ->
  collects_from (flatten iter) (ph, su, None) (List.concat ll, fin).
Proof.
  intros Hph [sf [n Hn]]. simpl in Hn.
  revert su ph ll Hph Hn. induction n as [|n IH]; intros su ph ll Hph Hn.
  - specialize (Hn O). discriminate.
  - apply run_S_inv in Hn. destruct (step iter su) as [su' o] eqn:Hs.
    destruct o as [v| | |e].
    + destruct Hn as [out' [Heq Hn]].
      destruct ll as [|inner ll]; [discriminate|].
      simpl in Heq. inversion Heq; subst.
      specialize (IH su' Pulling ll ltac:(congruence) Hn).
      eapply collects_tau
        with (s':=(Pulling, su', Some (set_cur (of_list inner) inner)));
        [open_phase ph; ev|].
      exact (flatten_delegate (ri:=(inner, Completed)) (ph:=Pulling)
               ltac:(congruence) (of_list_from inner inner) IH).
    + eapply collects_tau; [|apply (IH su' Pulling); [congruence|exact Hn]].
      open_phase ph; ev.
    + destruct Hn as (Heq & -> & _).
      destruct ll; [|discriminate]. open_phase ph; finished.
    + destruct Hn as (Heq & -> & _).
      destruct ll; [|discriminate]. open_phase ph; throw.
Qed.

(** X11.  [flatten] over any source that settles, whose elements are
    arrays: it gives the elements of the first array in order, then those
    of the second, and so on (an empty array gives nothing), and ends as
    the source ends. *)
Theorem flatten_over_any_source :
  forall T (iter : Iterator E (Iterator E T)) (ll : list (list T)) fin,
    collects iter (List.map of_list ll, fin) ->
    collects (flatten iter) (List.concat ll, fin).
Proof.
  intros T iter ll fin H. apply flatten_over; [congruence|exact H].
Qed.

Lemma concat_from {T} (l0 gs : list (Iterator E T)) (outs : list (list T))
  ph :
  ph <> Closed ->
  Forall2 (fun g out => collects g (out, Completed)) gs outs ->
  collects_from (flatten (of_list l0)) (ph, gs, None)
    (List.concat outs, Completed).
Proof.
  intros Hph H. revert ph Hph.
  induction H as [|g out gs outs Hg _ IH]; intros ph Hph.
  - open_phase ph; finished.
  - eapply collects_tau with (s':=(Pulling, gs, Some g));
      [open_phase ph; ev|].
    exact (flatten_delegate_start (ph:=Pulling) ltac:(congruence) Hg
             (IH Pulling ltac:(congruence))).
Qed.

Lemma flatten_delegate_fail {T} (iter : Iterator E (Iterator E T)) su
  (inner : Iterator E T) (s : St inner) ph out e :
  ph <> Closed ->
  collects_from inner s (out, Failed e) ->
  collects_from (flatten iter) (ph, su, Some (set_cur inner s))
    (out, Failed e).
Proof.
  intros Hph [sf [n Hn]]. simpl in Hn.
  revert s ph out Hph Hn. induction n as [|n IH]; intros s ph out Hph Hn.
  - specialize (Hn O). discriminate.
  - apply run_S_inv in Hn. destruct (step inner s) as [s' o] eqn:Hs.
    destruct o as [v| | |e'].
    + destruct Hn as [out' [-> Hn]].
      specialize (IH s' Suspended out' ltac:(congruence) Hn).
      eapply collects_yield with (r:=(out', Failed e)); [|exact IH].
      open_phase ph; ev.
    + specialize (IH s' Pulling out ltac:(congruence) Hn).
      eapply collects_tau; [|exact IH]. open_phase ph; ev.
    + destruct Hn as (_ & Hfin & _). discriminate.
    + destruct Hn as (-> & Hfin & _). inversion Hfin; subst.
      open_phase ph; throw.
Qed.

Lemma flatten_delegate_fail_start {T} (iter : Iterator E (Iterator E T)) su
  (inner : Iterator E T) ph out e :
  ph <> Closed ->
  collects inner (out, Failed e) ->
  collects_from (flatten iter) (ph, su, Some inner) (out, Failed e).
Proof.
  intros Hph [sf [n Hn]]. simpl in Hn.
  destruct n as [|n]; [specialize (Hn O); discriminate|].
  apply run_S_inv in Hn.
  destruct (step inner (cur inner)) as [s' o] eqn:Hs.
  destruct o as [v| | |e'].
  - destruct Hn as [out' [-> Hn]].
    assert (Hd : collects_from (flatten iter)
                   (Suspended, su, Some (set_cur inner s'))
                   (out', Failed e)).
    { apply flatten_delegate_fail; [congruence|]. exists sf, n. exact Hn. }
    eapply collects_yield with (r:=(out', Failed e)); [|exact Hd].
    open_phase ph; ev.
  - assert (Hd : collects_from (flatten iter)
                   (Pulling, su, Some (set_cur inner s'))
                   (out, Failed e)).
    { apply flatten_delegate_fail; [congruence|]. exists sf, n. exact Hn. }
    eapply collects_tau; [|exact Hd]. open_phase ph; ev.
  - destruct Hn as (_ & Hfin & _). discriminate.
  - destruct Hn as (-> & Hfin & _). inversion Hfin; subst.
    open_phase ph; throw.
Qed.

Lemma concat_from_failing {T} (l0 gs : list (Iterator E T))
  (outs : list (list T)) g out e rest ph :
  ph <> Closed ->
  Forall2 (fun g out => collects g (out, Completed)) gs outs ->
  collects g (out, Failed e) ->
  collects_from (flatten (of_list l0)) (ph, gs ++ g :: rest, None)
    (List.concat outs ++ out, Failed e).
Proof.
  intros Hph H Hg. revert ph Hph.
  induction H as [|g' out' gs outs Hg' _ IH]; intros ph Hph.
  - eapply collects_tau with (s':=(Pulling, rest, Some g));
      [open_phase ph; ev|].
    apply flatten_delegate_fail_start; [congruence|exact Hg].
  - eapply collects_tau with (s':=(Pulling, gs ++ g :: rest, Some g'));
      [open_phase ph; ev|].
    simpl List.concat. rewrite <- app_assoc.
    exact (flatten_delegate_start (ri:=(out', Completed)) (ph:=Pulling)
             ltac:(congruence) Hg' (IH Pulling ltac:(congruence))).
Qed.

(** ** Fusion *)

Lemma map_map_step {T U V} (iter : Iterator E T) (f : T -> result E U)
  (g : U -> result E V) ph phi ph' su :
  (ph = Closed /\ ph' = Closed)
  \/ (ph <> Closed /\ phi <> Closed /\ ph' <> Closed) ->
  exists q qi q' su' o,
    step (map (map iter f) g) (ph, (phi, su)) = ((q, (qi, su')), o)
    /\ step (map iter (and_then f g)) (ph', su) = ((q', su'), o)
    /\ ((q = Closed /\ q' = Closed)
        \/ (q <> Closed /\ qi <> Closed /\ q' <> Closed)).
Proof.
  intros [[-> ->]|(Hph & Hphi & Hph')].
  - exists Closed, phi, Closed, su, Done. auto.
  - destruct (step iter su) as [su' o] eqn:Hs. destruct o as [v| | |e].
    + destruct (f v) as [u|e] eqn:Hf; [destruct (g u) as [w|e] eqn:Hg|].
      * exists Suspended, Suspended, Suspended, su', (Yield w).
        repeat split;
          [open_phase ph; open_phase phi; ev
          |open_phase ph'; unfold and_then; ev|].
        right. repeat split; congruence.
      * exists Closed, Suspended, Closed, su', (Throw e).
        repeat split;
          [open_phase ph; open_phase phi; ev
          |open_phase ph'; unfold and_then; ev|].
        left. auto.
      * exists Closed, Closed, Closed, su', (Throw e).
        repeat split;
          [open_phase ph; open_phase phi; ev
          |open_phase ph'; unfold and_then; ev|].
        left. auto.
    + exists Pulling, Pulling, Pulling, su', Tau.
      repeat split;
        [open_phase ph; open_phase phi; ev|open_phase ph'; ev|].
      right. repeat split; congruence.
    + exists Closed, Closed, Closed, su', Done.
      repeat split;
        [open_phase ph; open_phase phi; ev|open_phase ph'; ev|].
      left. auto.
    + exists Closed, Closed, Closed, su', (Throw e).
      repeat split;
        [open_phase ph; open_phase phi; ev|open_phase ph'; ev|].
      left. auto.
Qed.

Lemma map_map_run {T U V} (iter : Iterator E T) (f : T -> result E U)
  (g : U -> result E V) fuel :
  forall ph phi ph' su,
    (ph = Closed /\ ph' = Closed)
    \/ (ph <> Closed /\ phi <> Closed /\ ph' <> Closed) ->
    (run (map (map iter f) g) fuel (ph, (phi, su))).1
    = (run (map iter (and_then f g)) fuel (ph', su)).1.
Proof.
  induction fuel as [|fuel IH]; intros ph phi ph' su HR; [reflexivity|].
  destruct (map_map_step iter f g su HR)
    as (q & qi & q' & su' & o & H1 & H2 & HR').
  cbn [run]. rewrite H1, H2. specialize (IH q qi q' su' HR').
  destruct o as [v| | |e]; try reflexivity; [|exact IH].
  destruct (run (map (map iter f) g) fuel (q, (qi, su'))) as [[o1 f1] s1].
  destruct (run (map iter (and_then f g)) fuel (q', su')) as [[o2 f2] s2].
  simpl in IH. inversion IH; subst. reflexivity.
Qed.

(** X13.  Two [map]s fuse: [map(map(s, f), g)] and [map(s, x => g(f(x)))]
    show the consumer the same elements and the same end, step for step,
    over every source (finite or not) and for step functions that may
    throw. *)
Theorem map_of_map_is_map :
  forall T U V (iter : Iterator E T) (f : T -> result E U)
    (g : U -> result E V) fuel,
    (drain (map (map iter f) g) fuel).1
    = (drain (map iter (and_then f g)) fuel).1.
Proof.
  intros. apply map_map_run. right. repeat split; congruence.
Qed.

Lemma filterMap_step {T U} (iter : Iterator E T)
  (fn : T -> result E (nullable U)) ph phf phm su :
  (ph = Closed /\ phf = Closed)
  \/ (ph <> Closed /\ phf <> Closed /\ phm <> Closed) ->
  exists q qf qm su' o,
    step (filterMap iter fn) (ph, su) = ((q, su'), o)
    /\ step (filter (map iter fn) not_nullish) (phf, (phm, su))
       = ((qf, (qm, su')), o)
    /\ ((q = Closed /\ qf = Closed)
        \/ (q <> Closed /\ qf <> Closed /\ qm <> Closed)).
Proof.
  intros [[-> ->]|(Hph & Hphf & Hphm)].
  - exists Closed, Closed, phm, su, Done. auto.
  - destruct (step iter su) as [su' o] eqn:Hs. destruct o as [v| | |e].
    + destruct (fn v) as [r|e] eqn:Hf; [destruct (loose_eq_null r) eqn:Hr|].
      * exists Pulling, Pulling, Suspended, su', Tau.
        repeat split;
          [open_phase ph; ev
          |open_phase phf; open_phase phm; unfold not_nullish; ev|].
        right. repeat split; congruence.
      * exists Suspended, Suspended, Suspended, su', (Yield r).
        repeat split;
          [open_phase ph; ev
          |open_phase phf; open_phase phm; unfold not_nullish; ev|].
        right. repeat split; congruence.
      * exists Closed, Closed, Closed, su', (Throw e).
        repeat split;
          [open_phase ph; ev|open_phase phf; open_phase phm; ev|].
        left. auto.
    + exists Pulling, Pulling, Pulling, su', Tau.
      repeat split;
        [open_phase ph; ev|open_phase phf; open_phase phm; ev|].
      right. repeat split; congruence.
    + exists Closed, Closed, Closed, su', Done.
      repeat split;
        [open_phase ph; ev|open_phase phf; open_phase phm; ev|].
      left. auto.
    + exists Closed, Closed, Closed, su', (Throw e).
      repeat split;
        [open_phase ph; ev|open_phase phf; open_phase phm; ev|].
      left. auto.
Qed.

Lemma filterMap_run {T U} (iter : Iterator E T)
  (fn : T -> result E (nullable U)) fuel :
  forall ph phf phm su,
    (ph = Closed /\ phf = Closed)
    \/ (ph <> Closed /\ phf <> Closed /\ phm <> Closed) ->
    (run (filterMap iter fn) fuel (ph, su)).1
    = (run (filter (map iter fn) not_nullish) fuel (phf, (phm, su))).1.
Proof.
  induction fuel as [|fuel IH]; intros ph phf phm su HR; [reflexivity|].
  destruct (filterMap_step iter fn su HR)
    as (q & qf & qm & su' & o & H1 & H2 & HR').
  cbn [run]. rewrite H1, H2. specialize (IH q qf qm su' HR').
  destruct o as [v| | |e]; try reflexivity; [|exact IH].
  destruct (run (filterMap iter fn) fuel (q, su')) as [[o1 f1] s1].
  destruct (run (filter (map iter fn) not_nullish) fuel (qf, (qm, su')))
    as [[o2 f2] s2].
  simpl in IH. inversion IH; subst. reflexivity.
Qed.

(** X14.  [filterMap] is [filter] after [map]: [filterMap(s, fn)] and
    [filter(map(s, fn), r => r != null)] show the consumer the same
    elements and the same end, step for step, over every source and for
    every [fn], throwing or not. *)
Theorem filterMap_is_filter_of_map :
  forall T U (iter : Iterator E T) (fn : T -> result E (nullable U)) fuel,
    (drain (filterMap iter fn) fuel).1
    = (drain (filter (map iter fn) not_nullish) fuel).1.
Proof.
  intros. apply filterMap_run. right. repeat split; congruence.
Qed.

(** ** Pipelines *)

Lemma map_collects_over {T U} (iter : Iterator E T) (f : T -> U) out fin :
  collects iter (out, fin) ->
  collects (map iter (pure f)) (List.map f out, fin).
Proof.
  intros H.
  assert (Hm : collects_from (map iter (pure f)) (Fresh, cur iter)
                 (then_end (map_list (pure f) out) fin))
    by (apply map_over; [congruence|exact H]).
  rewrite map_list_pure in Hm. exact Hm.
Qed.

Lemma filter_collects_over {T} (iter : Iterator E T) (p : T -> bool) out fin :
  collects iter (out, fin) ->
  collects (filter iter (pure p)) (List.filter p out, fin).
Proof.
  intros H.
  assert (Hm : collects_from (filter iter (pure p)) (Fresh, cur iter)
                 (then_end (filter_list (pure p) out) fin))
    by (apply filter_over; [congruence|exact H]).
  rewrite filter_list_pure in Hm. exact Hm.
Qed.

Lemma take_collects_over {T} (iter : Iterator E T) (n : Z) out :
  collects iter (out, Completed) ->
  collects (take iter n) (firstn (Z.to_nat n) out, Completed).
Proof.
  intros H.
  assert (Ht : collects_from (take iter n) (Fresh, 0%Z, cur iter)
                 (take_end n 0 out Completed))
    by (apply take_over with (ph:=Fresh); [congruence|exact H]).
  rewrite take_end_firstn, Z.sub_0_r in Ht.
  destruct (Nat.ltb_spec (Z.to_nat n) (length out)); [exact Ht|].
  rewrite firstn_all2 by lia. exact Ht.
Qed.

(** X15.  Combinators compose as the list functions do: over the elements
    [l], [map(filter(take(s, n), p), f)] gives [f] of those of the first
    [n] elements that [p] accepts, in order, and is done. *)
Theorem pipeline_composes :
  forall T U (l : list T) (n : Z) (p : T -> bool) (f : T -> U),
    collects
      (map (E:=E) (filter (take (of_list l) n) (pure p)) (pure f))
      (List.map f (List.filter p (firstn (Z.to_nat n) l)), Completed).
Proof.
  intros T U l n p f.
  apply map_collects_over, filter_collects_over, take_collects_over.
  apply of_list_from.
Qed.

(** X16.  [take] of [take] over an array: [take(take(l, n), m)] gives the
    first [min(n, m)] elements of [l] and is done. *)
Theorem take_of_take :
  forall T (l : list T) (n m : Z),
    collects (take (take (E:=E) (of_list l) n) m)
      (firstn (Nat.min (Z.to_nat m) (Z.to_nat n)) l, Completed).
Proof.
  intros T l n m.
  rewrite <- firstn_firstn.
  apply take_collects_over, take_collects_over, of_list_from.
Qed.

Lemma dedupe_collects_over {T} (iter : Iterator E T) (key : T -> string)
  out fin :
  collects iter (out, fin) ->
  collects (dedupe iter (pure key)) (first_occurrences key [] out, fin).
Proof.
  intros H.
  assert (Hm : collects_from (dedupe iter (pure key)) (Fresh, ∅, cur iter)
                 (then_end (dedupe_list (pure key) ∅ out) fin))
    by (apply dedupe_over; [congruence|exact H]).
  assert (Hl : dedupe_list (E:=E) (pure key) ∅ out
               = (first_occurrences key [] out, Completed))
    by (apply (dedupe_list_pure (T:=T)) with (before:=[])).
  rewrite Hl in Hm. exact Hm.
Qed.

(** X17.  [dedupe] twice is [dedupe] once: over any source that settles,
    [dedupe(dedupe(s, k), k)] gives the same elements as [dedupe(s, k)]
    and ends in the same way. *)
Theorem dedupe_of_dedupe :
  forall T (iter : Iterator E T) (key : T -> string) out fin,
    collects iter (out, fin) ->
    collects (dedupe (dedupe iter (pure key)) (pure key))
      (first_occurrences key [] out, fin)
    /\ collects (dedupe iter (pure key)) (first_occurrences key [] out, fin).
Proof.
  intros T iter key out fin H.
  pose proof (dedupe_collects_over key H) as H1. split; [|exact H1].
  pose proof (dedupe_collects_over key H1) as H2.
  rewrite first_occurrences_id in H2; [exact H2| |].
  - apply first_occurrences_NoDup.
  - intros x _ Hin. inversion Hin.
Qed.

(** ** What [take] asks of its source, request by request *)

Lemma take_requests {T} (n : Z) (l0 : list T) j k :
  forall (l : list T) ph c count,
    ph <> Closed ->
    k <= length l ->
    (match ph with Suspended => count + 1 | _ => count end
     + Z.of_nat k <= n)%Z ->
    exists ph' count',
      requests (take (E:=E) (counted (of_list l0)) n) (S j) k
        (ph, count, (c, l))
      = Some (List.map Yield (firstn k l), (ph', count', (c + k, skipn k l))).
Proof.
  induction k as [|k IH]; intros l ph c count Hph Hk Hn.
  - exists ph, count. simpl. rewrite Nat.add_0_r. reflexivity.
  - destruct l as [|x l]; [simpl in Hk; lia|]. simpl in Hk.
    set (count1 := (match ph with Suspended => count + 1 | _ => count end)%Z)
      in *.
    destruct (IH l Suspended (S c) count1 ltac:(congruence) ltac:(lia)
                ltac:(lia)) as (ph' & count' & Hreq).
    exists ph', count'.
    assert (Hnext : next (take (E:=E) (counted (of_list l0)) n) (S j)
                      (ph, count, (c, x :: l))
                    = Some ((Suspended, count1, (S c, l)), Yield x)).
    { subst count1. open_phase ph; simpl;
        (replace (n <=? _)%Z with false by (symmetry; apply Z.leb_gt; lia));
        reflexivity. }
    cbn [requests]. rewrite Hnext, Hreq.
    replace (c + S k) with (S c + k) by lia. reflexivity.
Qed.

(** X18.  While the consumer asks [take(s, n)] for at most [n] elements,
    [take] asks its source for nothing more: the first [k] requests
    ([k <= n], [k] at most the length of the source) are answered with the
    first [k] elements, and the source has then answered exactly [k] calls
    of [next()]. *)
Theorem take_first_requests_pull_exactly :
  forall T (l : list T) (n : Z) (k j : nat),
    k <= Z.to_nat n -> k <= length l ->
    exists ph count,
      requests (take (E:=E) (counted (of_list l)) n) (S j) k
        (cur (take (E:=E) (counted (of_list l)) n))
      = Some (List.map Yield (firstn k l), (ph, count, (k, skipn k l))).
Proof.
  intros T l n k j Hk Hl.
  destruct k as [|k]; [exists Fresh, 0%Z; reflexivity|].
  destruct (@take_requests T n l j (S k) l Fresh O 0%Z ltac:(congruence) Hl
              ltac:(simpl; lia)) as (ph & count & H).
  exists ph, count. exact H.
Qed.

Lemma takeAsync_counted {T} (n : Z) (l0 : list T) m :
  forall (l : list T) ph c count,
    at_loop ph ->
    (n - match ph with ASuspended => count + 1 | _ => count end)%Z
    = Z.of_nat m ->
    m <= length l ->
    settles (takeAsync (E:=E) (counted (of_list l0)) n) (ph, count, (c, l))
      (firstn m l) Completed
      (AClosed, n, (S (c + m), skipn (S m) l)).
Proof.
  induction m as [|m IH]; intros l ph c count Hph Hn Hm.
  - rewrite Nat.add_0_r. simpl firstn.
    set (count1 := (match ph with ASuspended => count + 1 | _ => count end)%Z)
      in *.
    assert (Hc : count1 = n) by lia.
    destruct l as [|x l].
    + eapply settles_done. subst count1.
      open_phase ph; simpl; repeat f_equal; lia.
    + eapply settles_tau with (s':=(AReceived x, count1, (S c, l)));
        [subst count1; open_phase ph; reflexivity|].
      eapply settles_done. simpl.
      replace (n <=? count1)%Z with true by (symmetry; apply Z.leb_le; lia).
      rewrite Hc. reflexivity.
  - destruct l as [|x l]; [simpl in Hm; lia|]. simpl in Hm.
    set (count1 := (match ph with ASuspended => count + 1 | _ => count end)%Z)
      in *.
    assert (IH' := IH l ASuspended (S c) count1 I ltac:(lia) ltac:(lia)).
    replace (S (c + S m)) with (S (S c + m)) by lia.
    change (skipn (S (S m)) (x :: l)) with (skipn (S m) l).
    simpl firstn.
    eapply settles_tau with (s':=(AReceived x, count1, (S c, l)));
      [subst count1; open_phase ph; reflexivity|].
    eapply settles_yield; [|exact IH']. simpl.
    replace (n <=? count1)%Z with false by (symmetry; apply Z.leb_gt; lia).
    reflexivity.
Qed.

(** X19.  [takeAsync] has the loop of [take]: when the source has at least
    [n] elements ([0 <= n]), draining [takeAsync(s, n)] gives the first
    [n] elements and makes [n + 1] calls of [next()] on the source. *)
Theorem takeAsync_pulls_one_past_n :
  forall T (l : list T) (n : Z),
    (0 <= n)%Z -> Z.to_nat n <= length l ->
    let g := takeAsync (E:=E) (counted (of_list l)) n in
    settles g (cur g) (firstn (Z.to_nat n) l) Completed
      (AClosed, n, (S (Z.to_nat n), skipn (S (Z.to_nat n)) l)).
Proof.
  intros T l n Hn Hl g.
  apply takeAsync_counted with (m:=Z.to_nat n) (ph:=AFresh) (c:=O)
                               (count:=0%Z); [exact I|lia|exact Hl].
Qed.

(** ** The suspending family over any source that settles *)











(** ** [toAsync] over elements that may be promises *)

Lemma settled_list_plain {T} (as_promise : T -> option (nat * result E T))
  (l : list T) :
  Forall (fun v => as_promise v = None) l ->
  settled_list as_promise l = (l, Completed).
Proof.
  induction 1 as [|v l Hv _ IH]; simpl; [reflexivity|].
  rewrite Hv, IH. reflexivity.
Qed.

Lemma toAsync_awaiting_await {T} (as_promise : T -> option (nat * result E T))
  (iter : Iterator E T) d x su r :
  collects_from (toAsync_awaiting as_promise iter) (AAwaiting O x, su) r ->
  collects_from (toAsync_awaiting as_promise iter) (AAwaiting d x, su) r.
Proof. intros H. induction d as [|d IH]; [exact H|]. tau. exact IH. Qed.

Lemma toAsync_awaiting_over {T} (as_promise : T -> option (nat * result E T))
  (iter : Iterator E T) su ph out fin :
  at_loop ph ->
  collects_from iter su (out, fin) ->
  collects_from (toAsync_awaiting as_promise iter) (ph, su)
    (then_end (settled_list as_promise out) fin).
Proof.
  intros Hph [sf [n Hn]]. simpl in Hn.
  revert su ph out Hph Hn. induction n as [|n IH]; intros su ph out Hph Hn.
  - specialize (Hn O). discriminate.
  - apply run_S_inv in Hn. destruct (step iter su) as [su' o] eqn:Hs.
    destruct o as [v| | |e].
    + destruct Hn as [out' [-> Hn]].
      specialize (IH su' ASuspended out' I Hn).
      simpl settled_list.
      destruct (as_promise v) as [[d [v'|e]]|] eqn:Hv;
        try rewrite then_end_emit.
      * eapply collects_tau with (s':=(AAwaiting d (Ok v'), su'));
          [open_phase ph; ev|].
        apply toAsync_awaiting_await. yield. exact IH.
      * eapply collects_tau with (s':=(AAwaiting d (Err e), su'));
          [open_phase ph; ev|].
        apply toAsync_awaiting_await. throw.
      * eapply collects_tau with (s':=(AReceived v, su'));
          [open_phase ph; ev|].
        yield. exact IH.
    + eapply collects_tau; [|apply (IH su' APulling); [exact I|exact Hn]].
      open_phase ph; ev.
    + destruct Hn as (-> & -> & _). open_phase ph; finished.
    + destruct Hn as (-> & -> & _). open_phase ph; throw.
Qed.

Lemma toAsync_awaiting_plain {T} (as_promise : T -> option (nat * result E T))
  (iter : Iterator E T) out fin :
  collects iter (out, fin) ->
  Forall (fun v => as_promise v = None) out ->
  collects (toAsync_awaiting as_promise iter) (out, fin).
Proof.
  intros H Hp.
  pose proof (@toAsync_awaiting_over T as_promise iter (cur iter) AFresh
                out fin I H) as Hm.
  rewrite (@settled_list_plain T as_promise out Hp) in Hm. exact Hm.
Qed.

Lemma toAsync_awaiting_array {T} (as_promise : T -> option (nat * result E T))
  (l : list T) :
  Forall (fun v => as_promise v = None) l ->
  collects (toAsync_awaiting as_promise (of_list l)) (l, Completed).
Proof.
  intros Hp. apply toAsync_awaiting_plain; [apply of_list_from|exact Hp].
Qed.

(** [toAsync] is [toAsync_awaiting] when no value is a promise: the two
    machines move in step. *)
Lemma toAsync_step_awaiting {T} (iter : Iterator E T) ph su :
  step (toAsync_awaiting (fun _ => None) iter) (awaiting_phase ph, su)
  = let '((q, su'), o) := step (toAsync iter) (ph, su) in
    ((awaiting_phase q, su'), o).
Proof.
  destruct ph as [| |v|d x| |]; simpl; try reflexivity;
    try (destruct x);
    destruct (step iter su) as [su' [v'| | |e]]; reflexivity.
Qed.

Lemma toAsync_is_awaiting_plain {T} (iter : Iterator E T) fuel :
  forall ph su,
    (run (toAsync_awaiting (fun _ => None) iter) fuel (awaiting_phase ph, su)).1
    = (run (toAsync iter) fuel (ph, su)).1.
Proof.
  induction fuel as [|fuel IH]; intros ph su; [reflexivity|].
  cbn [run]. rewrite toAsync_step_awaiting.
  destruct (step (toAsync iter) (ph, su)) as [[q su'] o].
  specialize (IH q su').
  destruct o as [v| | |e]; try reflexivity; [|exact IH].
  destruct (run (toAsync_awaiting (fun _ => None) iter) fuel
              (awaiting_phase q, su')) as [[o1 f1] s1].
  destruct (run (toAsync iter) fuel (q, su')) as [[o2 f2] s2].
  simpl in IH. inversion IH; subst. reflexivity.
Qed.

(** ** [flattenAsync] and [concatAsync] over any source *)




(** ** The two families agree *)


(** ** [take] and [takeWhile] over a [map] *)

Lemma map_list_reaches {T U} (fn : T -> result E U) (f : T -> U)
  pre x post y :
  Forall (fun v => fn v = Ok (f v)) pre -> fn x = Ok y ->
  map_list fn (pre ++ x :: post)
  = (List.map f pre ++ y :: (map_list fn post).1, (map_list fn post).2).
Proof.
  intros Hpre Hx. induction Hpre as [|v pre Hv _ IH]; simpl.
  - rewrite Hx. reflexivity.
  - rewrite Hv, IH. reflexivity.
Qed.

(** X7.  [take] runs the step functions upstream once more than it
    yields.  Over an array of more than [n] elements, [take(map(l, fn),
    n)] applies [fn] to element [n + 1] as well: when [fn] returns there,
    the result is dropped and [take] is done after the first [n] results;
    when [fn] throws there, [take] throws, after it has yielded the first
    [n] results. *)
Theorem take_runs_upstream_once_more :
  forall T U (fn : T -> result E U) (f : T -> U) pre x post (n : Z),
    Forall (fun v => fn v = Ok (f v)) pre ->
    n = Z.of_nat (length pre) ->
    (forall y, fn x = Ok y ->
       collects (take (map (of_list (pre ++ x :: post)) fn) n)
         (List.map f pre, Completed))
    /\ (forall e, fn x = Err e ->
          collects (take (map (of_list (pre ++ x :: post)) fn) n)
            (List.map f pre, Failed e)).
Proof.
  intros T U fn f pre x post n Hpre Hn.
  assert (Hm : collects (map (of_list (pre ++ x :: post)) fn)
                 (map_list fn (pre ++ x :: post)))
    by (apply map_from; congruence).
  split.
  - intros y Hx. rewrite map_list_reaches with (f:=f) (y:=y) in Hm;
      [|exact Hpre|exact Hx].
    assert (Ht : collects_from
                   (take (map (of_list (pre ++ x :: post)) fn) n)
                   (Fresh, 0%Z, (Fresh, pre ++ x :: post))
                   (take_end n 0
                      (List.map f pre ++ y :: (map_list fn post).1)
                      (map_list fn post).2))
      by (apply take_over with (ph:=Fresh); [congruence|exact Hm]).
    rewrite take_end_firstn, Z.sub_0_r in Ht.
    replace (Z.to_nat n) with (length (List.map f pre)) in Ht
      by (rewrite length_map; lia).
    rewrite firstn_app, firstn_all, Nat.sub_diag, firstn_O, app_nil_r in Ht.
    rewrite length_app in Ht. simpl length in Ht.
    destruct (Nat.ltb_spec (length (List.map f pre))
                (length (List.map f pre)
                 + S (length (map_list fn post).1))); [exact Ht|lia].
  - intros e Hx.
    rewrite map_list_fail with (f:=f) (e:=e) in Hm; [|exact Hpre|exact Hx].
    assert (Ht : collects_from
                   (take (map (of_list (pre ++ x :: post)) fn) n)
                   (Fresh, 0%Z, (Fresh, pre ++ x :: post))
                   (take_end n 0 (List.map f pre) (Failed e)))
      by (apply take_over with (ph:=Fresh); [congruence|exact Hm]).
    rewrite take_end_firstn, Z.sub_0_r in Ht.
    replace (Z.to_nat n) with (length (List.map f pre)) in Ht
      by (rewrite length_map; lia).
    rewrite Nat.ltb_irrefl in Ht. exact Ht.
Qed.

Lemma takeWhile_end_stops {T} (p : T -> bool) pre y rest (fin : ending E) :
  Forall (fun v => p v = true) pre -> p y = false ->
  takeWhile_end (pure p) (pre ++ y :: rest) fin = (pre, Completed).
Proof.
  intros Hp Hy. unfold pure.
  induction Hp as [|v pre Hv _ IH]; simpl.
  - rewrite Hy. reflexivity.
  - rewrite Hv, IH. reflexivity.
Qed.

(** X8.  [takeWhile] leaves the elements after the rejected one alone.
    Over an array, [takeWhile(map(l, fn), p)] gives the results of [fn]
    up to the first one that [p] rejects and is done there: [fn] is never
    applied to a later element, so it does not matter that it would throw
    on one. *)
Theorem takeWhile_stops_upstream :
  forall T U (fn : T -> result E U) (f : T -> U) (p : U -> bool)
    pre x post y,
    Forall (fun v => fn v = Ok (f v)) pre ->
    Forall (fun v => p (f v) = true) pre ->
    fn x = Ok y -> p y = false ->
    collects (takeWhile (map (of_list (pre ++ x :: post)) fn) (pure p))
      (List.map f pre, Completed).
Proof.
  intros T U fn f p pre x post y Hpre Hp Hx Hy.
  assert (Hm : collects (map (of_list (pre ++ x :: post)) fn)
                 (map_list fn (pre ++ x :: post)))
    by (apply map_from; congruence).
  rewrite map_list_reaches with (f:=f) (y:=y) in Hm;
      [|exact Hpre|exact Hx].
  assert (Ht : collects_from
                 (takeWhile (map (of_list (pre ++ x :: post)) fn) (pure p))
                 (Fresh, (Fresh, pre ++ x :: post))
                 (takeWhile_end (pure p)
                    (List.map f pre ++ y :: (map_list fn post).1)
                    (map_list fn post).2))
    by (apply takeWhile_over; [congruence|exact Hm]).
  rewrite takeWhile_end_stops in Ht; [exact Ht| |exact Hy].
  clear Ht Hm Hpre. induction Hp as [|v pre Hv _ IH]; simpl; constructor;
    assumption.
Qed.

(** X10.  [toAsync] over an array awaits each element.  An element that
    is not a promise comes out as it is; a promise comes out as the value
    it is fulfilled with, however long it stays pending; at a promise
    that is rejected with [e], [toAsync] throws [e], after the elements
    before it, and gives none of the elements after it. *)
Theorem toAsync_settles_elements :
  forall T (as_promise : T -> option (nat * result E T)),
    (forall l,
        collects (toAsync_awaiting as_promise (of_list l))
          (settled_list as_promise l))
    /\ (forall l,
           Forall (fun v => as_promise v = None) l ->
           collects (toAsync_awaiting as_promise (of_list l)) (l, Completed))
    /\ (forall pre v d v' post,
           Forall (fun v => as_promise v = None) pre ->
           as_promise v = Some (d, Ok v') ->
           Forall (fun v => as_promise v = None) post ->
           collects (toAsync_awaiting as_promise (of_list (pre ++ v :: post)))
             (pre ++ v' :: post, Completed))
    /\ (forall pre v d e post,
           Forall (fun v => as_promise v = None) pre ->
           as_promise v = Some (d, Err e) ->
           collects (toAsync_awaiting as_promise (of_list (pre ++ v :: post)))
             (pre, Failed e)).
Proof.
  intros T as_promise.
  assert (Hall : forall l,
             collects (toAsync_awaiting as_promise (of_list l))
               (settled_list as_promise l)).
  { intros l.
    assert (H : collects_from (toAsync_awaiting as_promise (of_list l))
                  (AFresh, l)
                  (then_end (settled_list as_promise l) Completed))
      by (apply toAsync_awaiting_over; [exact I|apply of_list_from]).
    unfold then_end in H.
    destruct (settled_list as_promise l) as [out [|e]]; exact H. }
  split; [exact Hall|]. split; [|split].
  - intros l Hp. apply toAsync_awaiting_array, Hp.
  - intros pre v d v' post Hpre Hv Hpost.
    specialize (Hall (pre ++ v :: post)).
    replace (settled_list as_promise (pre ++ v :: post))
      with (pre ++ v' :: post, @Completed E) in Hall; [exact Hall|].
    clear Hall. induction Hpre as [|w pre Hw _ IH]; simpl.
    + rewrite Hv, settled_list_plain by exact Hpost. reflexivity.
    + rewrite Hw, <- IH. reflexivity.
  - intros pre v d e post Hpre Hv.
    specialize (Hall (pre ++ v :: post)).
    replace (settled_list as_promise (pre ++ v :: post))
      with (pre, Failed e) in Hall; [exact Hall|].
    clear Hall. induction Hpre as [|w pre Hw _ IH]; simpl.
    + rewrite Hv. reflexivity.
    + rewrite Hw, <- IH. reflexivity.
Qed.

Lemma arrays_collect {T} (ll : list (list T)) :
  Forall2 (fun g out => collects g (out, Completed))
    (List.map (of_list (E:=E)) ll) ll.
Proof.
  induction ll as [|l ll IH]; simpl; constructor;
    [apply of_list_from|exact IH].
Qed.

(** X12.  [concat] of arrays gives the elements of the first array, then
    those of the second, and so on, and is done; an array may be passed
    more than once.  When the argument after the arrays is a [map] whose
    function throws on one of its elements, [concat] gives the arrays,
    then the results of the [map] up to there, and throws the same error;
    the arguments after it are never read. *)
Theorem concat_of_arrays :
  forall T (ll : list (list T)),
    collects (concat (E:=E) (List.map of_list ll))
      (List.concat ll, Completed)
    /\ (forall S (fn : S -> result E T) (f : S -> T) pre x post e rest,
           Forall (fun v => fn v = Ok (f v)) pre -> fn x = Err e ->
           collects
             (concat (List.map of_list ll
                      ++ map (of_list (pre ++ x :: post)) fn :: rest))
             (List.concat ll ++ List.map f pre, Failed e)).
Proof.
  intros T ll. split.
  - apply concat_from; [congruence|apply arrays_collect].
  - intros S fn f pre x post e rest Hpre Hx.
    apply concat_from_failing; [congruence|apply arrays_collect|].
    rewrite <- map_list_fail with (fn:=fn) (x:=x) (post:=post);
      [|exact Hpre|exact Hx].
    apply map_from. congruence.
Qed.


End Theory.

(** ** Concrete instances *)

(** C1 at [take([1, 2, 3], 2)]: three calls of [next()] on the source. *)
Lemma take_pulls_one_past_n_witness :
  (0 <= 2)%Z /\ Z.to_nat 2 <= length [1; 2; 3]%Z
  /\ settles (take (E:=string) (counted (of_list [1; 2; 3]%Z)) 2)
       (Fresh, 0%Z, (0, [1; 2; 3]%Z)) [1; 2]%Z Completed
       (Closed, 2%Z, (3, [])).
Proof.
  split; [lia|]. split; [simpl; lia|].
  apply (@take_pulls_one_past_n string Z [1; 2; 3]%Z 2%Z); [lia|simpl; lia].
Defined.

(** [take(s, 0)] over [[1, 2, 3]] yields nothing and has pulled one
    element. *)
Example take_zero_pulls_one :
  drain (take (E:=string) (counted (of_list [1; 2; 3]%Z)) 0) 5
  = ([], Some Completed, (Closed, 0%Z, (1, [2; 3]%Z))).
Proof. reflexivity. Qed.

(** C3 as stated fails: [scan] over [[7]] with a function that throws on
    the first element does not raise on the first request (it answers the
    initial accumulator) but on the second; [filter] over [[1, 2, 3]] with
    a predicate that rejects 1 and 2 and throws on the third element raises
    on the first request, not on the third. *)
Lemma failure_not_at_kth_request :
  (always_throws 0%Z 7%Z = Err "boom"%string
   /\ ~ answers late_failure 1 (Throw "boom"%string)
   /\ answers late_failure 1 (Yield 0%Z)
   /\ answers late_failure 2 (Throw "boom"%string))
  /\ (throws_on 3 1%Z = Ok false /\ throws_on 3 2%Z = Ok false
      /\ throws_on 3 3%Z = Err "boom"%string
      /\ ~ answers early_failure 3 (Throw "boom"%string)
      /\ answers early_failure 1 (Throw "boom"%string)
      /\ answers early_failure 3 Done).
Proof.
  assert (H1 : answers late_failure 1 (Yield 0%Z))
    by (exists 1; intros j; reflexivity).
  assert (H2 : answers early_failure 3 Done)
    by (exists 3; intros j; reflexivity).
  split.
  - split; [reflexivity|]. split.
    + intros H. pose proof (answers_det H H1). discriminate.
    + split; [exact H1|]. exists 2. intros j. reflexivity.
  - do 3 (split; [reflexivity|]). split.
    + intros H. pose proof (answers_det H H2). discriminate.
    + split; [|exact H2]. exists 3. intros j. reflexivity.
Qed.

(** C3 (as the code has it) at [map([1, 2, 3, 4], succ_but 3)], and at
    [scan] and [reduce] over [[5, 4, 3]] with [capped] from 0: the
    accumulators 5 and 9 are reached, and [capped] throws on 9 and 3. *)
Lemma step_failure_propagates_witness :
  (Forall (fun v => succ_but 3 v = Ok ((fun v => v + 1)%Z v)) [1; 2]%Z
   /\ succ_but 3 3%Z = Err "boom"%string
   /\ fails_after (map (of_list ([1; 2] ++ 3 :: [4])%Z) (succ_but 3))
        (List.map (fun v => v + 1)%Z [1; 2]%Z) "boom"%string
   /\ answers (map (of_list ([1; 2] ++ 3 :: [4])%Z) (succ_but 3)) 3
        (Throw "boom"%string))
  /\ ((forall pre1 v pre2, [5; 4]%Z = pre1 ++ v :: pre2 ->
         capped (fold_left Z.add pre1 0%Z) v
         = Ok (Z.add (fold_left Z.add pre1 0%Z) v))
      /\ capped (fold_left Z.add [5; 4]%Z 0%Z) 3%Z = Err "overflow"%string
      /\ fails_after (scan (of_list ([5; 4] ++ 3 :: [])%Z) capped 0%Z)
           (0%Z :: running Z.add 0%Z [5; 4]%Z) "overflow"%string
      /\ answers (scan (of_list ([5; 4] ++ 3 :: [])%Z) capped 0%Z) 4
           (Throw "overflow"%string)
      /\ returns (reduce (of_list ([5; 4] ++ 3 :: [])%Z) capped 0%Z)
           (Err "overflow"%string)).
Proof.
  split.
  - assert (Hpre : Forall (fun v => succ_but 3 v = Ok ((fun v => v + 1)%Z v))
                     [1; 2]%Z) by (repeat constructor).
    assert (Hx : succ_but 3 3%Z = Err "boom"%string) by reflexivity.
    split; [exact Hpre|]. split; [exact Hx|].
    exact (proj1 (@step_failure_propagates string) Z Z (succ_but 3)
             (fun v => v + 1)%Z [1; 2]%Z 3%Z [4]%Z "boom"%string Hpre Hx).
  - assert (Hpre : forall pre1 v pre2, [5; 4]%Z = pre1 ++ v :: pre2 ->
                     capped (fold_left Z.add pre1 0%Z) v
                     = Ok (Z.add (fold_left Z.add pre1 0%Z) v)).
    { intros pre1 v pre2 Heq.
      destruct pre1 as [|a [|b [|c pre1]]]; simpl in Heq;
        inversion Heq; subst; reflexivity. }
    assert (Hx : capped (fold_left Z.add [5; 4]%Z 0%Z) 3%Z
                 = Err "overflow"%string) by reflexivity.
    split; [exact Hpre|]. split; [exact Hx|].
    destruct (proj1 (proj2 (proj2 (proj2 (@step_failure_propagates string))))
                Z Z capped Z.add 0%Z [5; 4]%Z 3%Z [] "overflow"%string
                Hpre Hx) as [Hf Ha].
    split; [exact Hf|]. split; [exact Ha|].
    exact (proj1 (proj2 (proj2 (proj2 (proj2
                   (@step_failure_propagates string)))))
             Z Z capped Z.add 0%Z [5; 4]%Z 3%Z [] "overflow"%string
             Hpre Hx).
Defined.



(** ** Instances of the properties over any source *)

Lemma map_over_any_source_witness :
  collects failing_source ([2; 3]%Z, Failed "boom"%string)
  /\ collects (map failing_source (pure (fun v => v * 10)%Z))
       (List.map (fun v => v * 10)%Z [2; 3]%Z, Failed "boom"%string)
  /\ length (List.map (fun v => v * 10)%Z [2; 3]%Z) = length [2; 3]%Z.
Proof.
  assert (H : collects failing_source ([2; 3]%Z, Failed "boom"%string))
    by (exists (Closed, []), 3; intros k; reflexivity).
  split; [exact H|].
  exact (@map_over_any_source string Z Z failing_source
           (fun v => v * 10)%Z [2; 3]%Z (Failed "boom"%string) H).
Defined.

Lemma filter_over_any_source_witness :
  collects failing_source ([2; 3]%Z, Failed "boom"%string)
  /\ collects (filter failing_source (pure Z.even))
       (List.filter Z.even [2; 3]%Z, Failed "boom"%string).
Proof.
  assert (H : collects failing_source ([2; 3]%Z, Failed "boom"%string))
    by (exists (Closed, []), 3; intros k; reflexivity).
  split; [exact H|].
  exact (@filter_over_any_source string Z failing_source Z.even [2; 3]%Z
           (Failed "boom"%string) H).
Defined.

Lemma reduce_over_any_source_witness :
  collects failing_source ([2; 3]%Z, Failed "boom"%string)
  /\ returns (reduce failing_source (pure2 Z.add) 0%Z) (Err "boom"%string).
Proof.
  assert (H : collects failing_source ([2; 3]%Z, Failed "boom"%string))
    by (exists (Closed, []), 3; intros k; reflexivity).
  split; [exact H|].
  exact (@reduce_over_any_source string Z Z failing_source Z.add 0%Z
           [2; 3]%Z (Failed "boom"%string) H).
Defined.

Lemma scan_over_any_source_witness :
  collects failing_source ([2; 3]%Z, Failed "boom"%string)
  /\ collects (scan failing_source (pure2 Z.add) 0%Z)
       (0%Z :: running Z.add 0%Z [2; 3]%Z, Failed "boom"%string)
  /\ List.last (0%Z :: running Z.add 0%Z [2; 3]%Z) 0%Z
     = fold_left Z.add [2; 3]%Z 0%Z.
Proof.
  assert (H : collects failing_source ([2; 3]%Z, Failed "boom"%string))
    by (exists (Closed, []), 3; intros k; reflexivity).
  split; [exact H|].
  exact (@scan_over_any_source string Z Z failing_source Z.add 0%Z
           [2; 3]%Z (Failed "boom"%string) H).
Defined.

Lemma filterMap_over_any_source_witness :
  collects failing_source ([2; 3]%Z, Failed "boom"%string)
  /\ collects
       (filterMap failing_source
          (pure (fun v => if Z.even v then Value v else Null)))
       (List.filter present
          (List.map (fun v => if Z.even v then Value v else Null) [2; 3]%Z),
        Failed "boom"%string).
Proof.
  assert (H : collects failing_source ([2; 3]%Z, Failed "boom"%string))
    by (exists (Closed, []), 3; intros k; reflexivity).
  split; [exact H|].
  exact (@filterMap_over_any_source string Z Z failing_source
           (fun v => if Z.even v then Value v else Null) [2; 3]%Z
           (Failed "boom"%string) H).
Defined.

Lemma dedupe_over_any_source_witness :
  collects (of_list (E:=string) ["a"; "b"; "a"]%string)
    (["a"; "b"; "a"]%string, Completed)
  /\ collects (dedupe (of_list (E:=string) ["a"; "b"; "a"]%string)
                 (pure (fun s => s)))
       (first_occurrences (fun s => s) [] ["a"; "b"; "a"]%string, Completed).
Proof.
  assert (H : collects (of_list (E:=string) ["a"; "b"; "a"]%string)
                (["a"; "b"; "a"]%string, Completed))
    by (exists [], 4; intros k; reflexivity).
  split; [exact H|].
  exact (@dedupe_over_any_source string string
           (of_list ["a"; "b"; "a"]%string) (fun s => s)
           ["a"; "b"; "a"]%string Completed H).
Defined.

Lemma flatMap_over_any_source_witness :
  collects failing_source ([2; 3]%Z, Failed "boom"%string)
  /\ collects (flatMap failing_source (arrays (pure (fun v => [v; v]))))
       (List.concat (List.map (fun v => [v; v]) [2; 3]%Z),
        Failed "boom"%string).
Proof.
  assert (H : collects failing_source ([2; 3]%Z, Failed "boom"%string))
    by (exists (Closed, []), 3; intros k; reflexivity).
  split; [exact H|].
  exact (@flatMap_over_any_source string Z Z failing_source
           (fun v => [v; v]) [2; 3]%Z (Failed "boom"%string) H).
Defined.

Lemma flatten_over_any_source_witness :
  collects nested_source (List.map of_list [[1; 2]; []; [3]]%Z, Completed)
  /\ collects (flatten nested_source)
       (List.concat [[1; 2]; []; [3]]%Z, Completed).
Proof.
  assert (H : collects nested_source
                (List.map of_list [[1; 2]; []; [3]]%Z, Completed))
    by (exists [], 4; intros k; reflexivity).
  split; [exact H|].
  exact (@flatten_over_any_source string Z nested_source
           [[1; 2]; []; [3]]%Z Completed H).
Defined.

Lemma dedupe_of_dedupe_witness :
  collects (of_list (E:=string) ["a"; "b"; "a"]%string)
    (["a"; "b"; "a"]%string, Completed)
  /\ collects
       (dedupe (dedupe (of_list (E:=string) ["a"; "b"; "a"]%string)
                  (pure (fun s => s)))
          (pure (fun s => s)))
       (first_occurrences (fun s => s) [] ["a"; "b"; "a"]%string, Completed)
  /\ collects (dedupe (of_list (E:=string) ["a"; "b"; "a"]%string)
                 (pure (fun s => s)))
       (first_occurrences (fun s => s) [] ["a"; "b"; "a"]%string, Completed).
Proof.
  assert (H : collects (of_list (E:=string) ["a"; "b"; "a"]%string)
                (["a"; "b"; "a"]%string, Completed))
    by (exists [], 4; intros k; reflexivity).
  split; [exact H|].
  exact (@dedupe_of_dedupe string string (of_list ["a"; "b"; "a"]%string)
           (fun s => s) ["a"; "b"; "a"]%string Completed H).
Defined.

Lemma take_first_requests_pull_exactly_witness :
  2 <= Z.to_nat 2 /\ 2 <= length [1; 2; 3]%Z
  /\ exists ph count,
       requests (take (E:=string) (counted (of_list [1; 2; 3]%Z)) 2) 1 2
         (Fresh, 0%Z, (0, [1; 2; 3]%Z))
       = Some (List.map Yield (firstn 2 [1; 2; 3]%Z),
               (ph, count, (2, skipn 2 [1; 2; 3]%Z))).
Proof.
  split; [simpl; lia|]. split; [simpl; lia|].
  apply (@take_first_requests_pull_exactly string Z [1; 2; 3]%Z 2%Z 2 0);
    simpl; lia.
Defined.

Lemma takeAsync_pulls_one_past_n_witness :
  (0 <= 2)%Z /\ Z.to_nat 2 <= length [1; 2; 3]%Z
  /\ settles (takeAsync (E:=string) (counted (of_list [1; 2; 3]%Z)) 2)
       (AFresh, 0%Z, (0, [1; 2; 3]%Z)) [1; 2]%Z Completed
       (AClosed, 2%Z, (3, [])).
Proof.
  split; [lia|]. split; [simpl; lia|].
  apply (@takeAsync_pulls_one_past_n string Z [1; 2; 3]%Z 2%Z);
    [lia|simpl; lia].
Defined.

Lemma take_runs_upstream_once_more_witness :
  Forall (fun v => succ_but 3 v = Ok ((fun v => v + 1)%Z v)) [1; 2]%Z
  /\ 2%Z = Z.of_nat (length [1; 2]%Z)
  /\ succ_but 3 3%Z = Err "boom"%string
  /\ collects (take (map (of_list ([1; 2] ++ 3 :: [4])%Z) (succ_but 3)) 2)
       (List.map (fun v => v + 1)%Z [1; 2]%Z, Failed "boom"%string).
Proof.
  assert (Hpre : Forall (fun v => succ_but 3 v = Ok ((fun v => v + 1)%Z v))
                   [1; 2]%Z) by (repeat constructor).
  assert (Hn : 2%Z = Z.of_nat (length [1; 2]%Z)) by reflexivity.
  assert (Hx : succ_but 3 3%Z = Err "boom"%string) by reflexivity.
  split; [exact Hpre|]. split; [exact Hn|]. split; [exact Hx|].
  exact (proj2 (@take_runs_upstream_once_more string Z Z (succ_but 3)
                  (fun v => v + 1)%Z [1; 2]%Z 3%Z [4]%Z 2%Z Hpre Hn)
           "boom"%string Hx).
Defined.

Lemma takeWhile_stops_upstream_witness :
  Forall (fun v => succ_but 4 v = Ok ((fun v => v + 1)%Z v)) [1]%Z
  /\ Forall (fun v => ((fun v => v + 1)%Z v <? 3)%Z = true) [1]%Z
  /\ succ_but 4 2%Z = Ok 3%Z /\ (3 <? 3)%Z = false
  /\ succ_but 4 4%Z = Err "boom"%string
  /\ collects
       (takeWhile (map (of_list ([1] ++ 2 :: [4])%Z) (succ_but 4))
          (pure (fun v => v <? 3)%Z))
       (List.map (fun v => v + 1)%Z [1]%Z, Completed).
Proof.
  assert (Hpre : Forall (fun v => succ_but 4 v = Ok ((fun v => v + 1)%Z v))
                   [1]%Z) by (repeat constructor).
  assert (Hp : Forall (fun v => ((fun v => v + 1)%Z v <? 3)%Z = true) [1]%Z)
    by (repeat constructor).
  assert (Hx : succ_but 4 2%Z = Ok 3%Z) by reflexivity.
  assert (Hy : (3 <? 3)%Z = false) by reflexivity.
  split; [exact Hpre|]. split; [exact Hp|]. split; [exact Hx|].
  split; [exact Hy|]. split; [reflexivity|].
  exact (@takeWhile_stops_upstream string Z Z (succ_but 4)
           (fun v => v + 1)%Z (fun v => v <? 3)%Z [1]%Z 2%Z [4]%Z 3%Z
           Hpre Hp Hx Hy).
Defined.

Lemma toAsync_settles_elements_witness :
  Forall (fun v => await_cell v = None) [Number 1]
  /\ await_cell (Pending 2 (Ok 5%Z)) = Some (2, Ok (Number 5))
  /\ Forall (fun v => await_cell v = None) [Number 3]
  /\ collects
       (toAsync_awaiting await_cell
          (of_list ([Number 1] ++ Pending 2 (Ok 5%Z) :: [Number 3])))
       ([Number 1] ++ Number 5 :: [Number 3], Completed).
Proof.
  assert (Hpre : Forall (fun v => await_cell v = None) [Number 1])
    by (repeat constructor).
  assert (Hv : await_cell (Pending 2 (Ok 5%Z)) = Some (2, Ok (Number 5)))
    by reflexivity.
  assert (Hpost : Forall (fun v => await_cell v = None) [Number 3])
    by (repeat constructor).
  split; [exact Hpre|]. split; [exact Hv|]. split; [exact Hpost|].
  exact (proj1 (proj2 (proj2 (@toAsync_settles_elements string cell
                                await_cell)))
           [Number 1] (Pending 2 (Ok 5%Z)) 2 (Number 5) [Number 3]
           Hpre Hv Hpost).
Defined.

Lemma concat_of_arrays_witness :
  Forall (fun v => succ_but 3 v = Ok ((fun v => v + 1)%Z v)) [1; 2]%Z
  /\ succ_but 3 3%Z = Err "boom"%string
  /\ collects
       (concat (List.map of_list [[1; 2]; []]%Z
                ++ map (of_list ([1; 2] ++ 3 :: [])%Z) (succ_but 3)
                   :: [of_list [9%Z]]))
       (List.concat [[1; 2]; []]%Z ++ List.map (fun v => v + 1)%Z [1; 2]%Z,
        Failed "boom"%string).
Proof.
  assert (Hpre : Forall (fun v => succ_but 3 v = Ok ((fun v => v + 1)%Z v))
                   [1; 2]%Z) by (repeat constructor).
  assert (Hx : succ_but 3 3%Z = Err "boom"%string) by reflexivity.
  split; [exact Hpre|]. split; [exact Hx|].
  exact (proj2 (@concat_of_arrays string Z [[1; 2]; []]%Z)
           Z (succ_but 3) (fun v => v + 1)%Z [1; 2]%Z 3%Z [] "boom"%string
           [of_list [9%Z]] Hpre Hx).
Defined.


End Generator.
